(** * portcheck: a bounded-concurrency TCP reachability prober

    Shallow embedding of [portcheck/main.go] and the properties of its
    port-set expander ([getPorts], [getAddresses]) and of its bounded
    concurrent prober ([main]).

    Go strings are byte sequences and are modelled by [string]; Go's [int] and
    [int64] are modelled by [Z] with the 64-bit wrap-around written out ([int]
    is taken to be 64 bits wide); a Go slice that may be [nil] is an
    [option (list _)]. The loop of [getPorts] can run for ever (a high bound
    equal to the largest [int64]), so the expander takes a loop budget. The
    prober is a transition system: [main] and the goroutines it starts take
    turns, and the buffered channel is the number of values it holds. *)

From Stdlib Require Import ZArith List Bool Arith Lia FinFun.
From Stdlib Require Import Strings.String Strings.Ascii.
From Stdlib Require Import Numbers.DecimalString Numbers.DecimalZ.
Import ListNotations.

Open Scope string_scope.
Open Scope Z_scope.

(** ** Results of running a piece of the program *)

(** A computation returns, terminates the process through [log.Fatal], or has
    not finished within the loop budget it was given. *)
Inductive res (A : Type) : Type :=
| Ret (a : A)
| Fatal (msg : string)
| OutOfFuel.

Arguments Ret {A} a.
Arguments Fatal {A} msg.
Arguments OutOfFuel {A}.

Definition bind {A B : Type} (m : res A) (k : A -> res B) : res B :=
  match m with
  | Ret a => k a
  | Fatal msg => Fatal msg
  | OutOfFuel => OutOfFuel
  end.

Notation "x <- m ;; k" := (bind m (fun x => k))
  (at level 61, m at next level, right associativity).

(** ** The parts of Go's standard library the program calls *)

Module strconv.

(** [int] and [int64] on a 64-bit platform. *)
Definition minInt64 : Z := - 2 ^ 63.
Definition maxInt64 : Z := 2 ^ 63 - 1.

Definition wrap64 (z : Z) : Z := (z + 2 ^ 63) mod 2 ^ 64 - 2 ^ 63.

Definition isDigit (c : ascii) : bool :=
  ((48 <=? nat_of_ascii c) && (nat_of_ascii c <=? 57))%nat.

Definition digitVal (c : ascii) : Z := Z.of_nat (nat_of_ascii c) - 48.

(** The digits of [s] read in base 10, on top of [n]; [None] on a byte that
    is not a digit. *)
Fixpoint parseDigits (s : string) (n : Z) : option Z :=
  match s with
  | EmptyString => Some n
  | String ch s' =>
      if isDigit ch then parseDigits s' (n * 10 + digitVal ch) else None
  end.

(** [strconv.Atoi]: an optional sign, then one digit or more; [None] stands
    for a non-nil error (bad syntax, or a value that does not fit [int]). *)
Definition Atoi (s : string) : option Z :=
  match s with
  | EmptyString => None
  | String c0 s' =>
      let neg := Ascii.eqb c0 "-" in
      let body := if neg || Ascii.eqb c0 "+" then s' else s in
      match body with
      | EmptyString => None
      | _ =>
          match parseDigits body 0 with
          | None => None
          | Some n =>
              let v := if neg then - n else n in
              if (minInt64 <=? v) && (v <=? maxInt64) then Some v else None
          end
      end
  end.

(** [strconv.FormatInt(i, 10)]: the canonical decimal text of [i]. *)
Definition FormatInt (i : Z) : string :=
  NilZero.string_of_int (Z.to_int i).

End strconv.

Module strings.

(** The text before the first [sep] and the pieces after it. *)
Fixpoint cutAll (s : string) (sep : ascii) : string * list string :=
  match s with
  | EmptyString => (EmptyString, [])
  | String c s' =>
      let (h, t) := cutAll s' sep in
      if Ascii.eqb c sep then (EmptyString, h :: t) else (String c h, t)
  end.

(** [strings.Split(s, sep)] for a separator of one byte, which is how the
    program calls it: the pieces of [s] between the occurrences of [sep],
    never an empty slice. [strings.SplitSeq] yields the same pieces in the
    same order. *)
Definition Split (s : string) (sep : ascii) : list string :=
  let (h, t) := cutAll s sep in h :: t.

Definition SplitSeq := Split.

(** [strings.IndexByte(s, c) >= 0]. *)
Fixpoint containsByte (s : string) (c : ascii) : bool :=
  match s with
  | EmptyString => false
  | String c' s' => Ascii.eqb c' c || containsByte s' c
  end.

End strings.

Module net.

(** [net.JoinHostPort]: a host that contains a colon (a literal IPv6
    address) is put in square brackets. *)
Definition JoinHostPort (host port : string) : string :=
  if strings.containsByte host ":" then "[" ++ host ++ "]:" ++ port
  else host ++ ":" ++ port.

End net.

(** ** The port-set expander *)

Definition portRangeEnd : Z := 65535.

(** The loop of [getPorts]:
    [for i := int64(start); i <= int64(end); i++ { toReturn = append(...) }].
    One unit of [fuel] pays for one iteration. *)
Fixpoint portLoop (fuel : nat) (i e : Z) (toReturn : list string)
  : res (list string) :=
  if i <=? e then
    match fuel with
    | O => OutOfFuel
    | S fuel' =>
        portLoop fuel' (strconv.wrap64 (i + 1)) e
                 (toReturn ++ [strconv.FormatInt i])%list
    end
  else Ret toReturn.

(** [getPorts]; [None] is the [nil] slice. The index [s[0]] exists because
    [strings.Split] never returns an empty slice; the first branch is the
    index-out-of-range panic, which the program therefore never takes. *)
Definition getPorts (fuel : nat) (r : string) : res (option (list string)) :=
  match strings.Split r "-" with
  | [] => Fatal "index out of range"
  | s0 :: s_tl =>
      match strconv.Atoi s0 with
      | None => Ret None
      | Some start =>
          if (start >? portRangeEnd) || (start <? 1) then Ret None
          else
            match s_tl with
            | [] => Ret (Some [s0])
            | [s1] =>
                match strconv.Atoi s1 with
                | None => Ret None
                | Some e =>
                    if (start >? portRangeEnd) || (start <? 1) then Ret None
                    else
                      toReturn <- portLoop fuel start e [] ;;
                      Ret (Some toReturn)
                end
            | _ :: _ :: _ => Ret None
            end
      end
  end.

(** The function literal of [getAddresses] applied to the ports of a token. *)
Definition joinAll (host : string) (r : list string) : list string :=
  fold_left (fun toReturn j => (toReturn ++ [net.JoinHostPort host j])%list) r [].

(** The loop over the tokens of the port argument. *)
Fixpoint tokenLoop (fuel : nat) (host : string) (tokens : list string)
         (addresses : list string) : res (list string) :=
  match tokens with
  | [] => Ret addresses
  | i :: rest =>
      r <- getPorts fuel i ;;
      match r with
      | Some r => tokenLoop fuel host rest (addresses ++ joinAll host r)%list
      | None => tokenLoop fuel host rest addresses
      end
  end.

(** [for i := range portRangeEnd]: [i] takes the values [0 .. portRangeEnd-1]. *)
Definition rangeInt (n : Z) : list Z :=
  map Z.of_nat (seq 0 (Z.to_nat n)).

Definition fullScan (host : string) (addresses : list string) : list string :=
  fold_left
    (fun addresses i =>
       if i =? 0 then addresses
       else (addresses ++ [net.JoinHostPort host (strconv.FormatInt i)])%list)
    (rangeInt portRangeEnd) addresses.

Definition usage : string :=
  "Not enough arguments. Usage: portcheck HOST [port|port-range|port1,port2,...]".

(** [getAddresses], with [os.Args] as a parameter. *)
Definition getAddresses (fuel : nat) (Args : list string) : res (list string) :=
  if (List.length Args <? 2)%nat then Fatal usage
  else
    let host := nth 1 Args "" in
    let addresses := [] in
    let addresses :=
      if (List.length Args =? 2)%nat then fullScan host addresses else addresses in
    if (2 <? List.length Args)%nat then
      let ports := nth 2 Args "" in
      tokenLoop fuel host (strings.SplitSeq ports ",") addresses
    else Ret addresses.

(** ** The bounded concurrent prober *)

Definition newline : string := String (ascii_of_nat 10) "".

Section Prober.

(** An open connection, and what closing it answers: [None], or the text of
    the error. *)
Variable Conn : Type.
Variable Close : Conn -> option string.

(** [runtime.NumCPU()]. *)
Variable NumCPU : nat.

Definition workers : nat := (NumCPU * 10)%nat.

(** What a goroutine started by [wg.Go] does, one action at a time. *)
Inductive action : Type :=
| Dial (address : string) (conn : option Conn)
    (* net.DialTimeout returns conn, nil when the attempt failed *)
| Stdout (line : string)
| Stderr (line : string)
| CloseConn (conn : Conn)
| Release.
    (* <-workerChan *)

(** A running function: the actions it has performed and the calls it has
    deferred, the most recent first. *)
Record frame : Type := mkFrame {
  performed : list action;
  deferred : list action
}.

Definition Body : Type := frame -> frame.

Definition perform (a : action) : Body :=
  fun f => mkFrame (f.(performed) ++ [a]) f.(deferred).

Definition defer (a : action) : Body :=
  fun f => mkFrame f.(performed) (a :: f.(deferred)).

Definition skip : Body := fun f => f.

Definition andThen (b1 b2 : Body) : Body := fun f => b2 (b1 f).

Notation "b1 ;;; b2" := (andThen b1 b2) (at level 62, right associativity).

(** The actions of a call, in order: the body, then at return the deferred
    calls, last deferred first. *)
Definition call (b : Body) : list action :=
  let f := b (mkFrame [] []) in (f.(performed) ++ f.(deferred))%list.

(** The function literal given to [wg.Go] in [main], for the connection that
    the dial of [address] returns ([None] is the nil connection of a failed
    or timed-out attempt). The receive from [workerChan] is deferred after
    the dial has returned. *)
Definition attempt (address : string) (conn : option Conn) : list action :=
  call (perform (Dial address conn) ;;;
        defer Release ;;;
        match conn with
        | Some c =>
            perform (Stdout ("SUCCESS: " ++ address ++ newline)) ;;;
            perform (CloseConn c) ;;;
            match Close c with
            | Some errE =>
                perform (Stderr ("error closing connection: " ++ errE ++ newline))
            | None => skip
            end
        | None => skip
        end).

(** Where [main] is in its loop. *)
Inductive mainpc : Type :=
| AtSend (rest : list string)
    (* head of the loop over [rest]: about to send on workerChan, or to
       leave the loop when [rest] is empty *)
| AtGo (address : string) (rest : list string)
    (* the send is done, about to call wg.Go *)
| AtWait
| Exited.

Record state : Type := mkState {
  pc : mainpc;
  chanLen : nat;                     (* values buffered in workerChan *)
  goroutines : list (list action);   (* what each started goroutine has left to do *)
  stdout : list string;
  stderr : list string
}.

(** [main] up to its loop: the channel is made, the addresses are computed. *)
Definition main (fuel : nat) (Args : list string) : res state :=
  addresses <- getAddresses fuel Args ;;
  Ret (mkState (AtSend addresses) 0 [] [] []).

(** A receive needs a buffered value; every other action can always go. *)
Definition enabled (a : action) (st : state) : Prop :=
  match a with
  | Release => (0 < st.(chanLen))%nat
  | _ => True
  end.

Definition act (a : action) (gs : list (list action)) (st : state) : state :=
  match a with
  | Stdout line => mkState st.(pc) st.(chanLen) gs (st.(stdout) ++ [line]) st.(stderr)
  | Stderr line => mkState st.(pc) st.(chanLen) gs st.(stdout) (st.(stderr) ++ [line])
  | Release => mkState st.(pc) (st.(chanLen) - 1) gs st.(stdout) st.(stderr)
  | Dial _ _ | CloseConn _ => mkState st.(pc) st.(chanLen) gs st.(stdout) st.(stderr)
  end.

(** One step of the program: [main] moves, or one goroutine performs its
    next action. The send blocks while the channel holds [workers] values.
    What the network will answer to a goroutine is any [conn]; it is fixed
    when the goroutine is started and seen when its dial returns. *)
Inductive step : state -> state -> Prop :=
| step_send st address rest :
    st.(pc) = AtSend (address :: rest) ->
    (st.(chanLen) < workers)%nat ->
    step st (mkState (AtGo address rest) (S st.(chanLen)) st.(goroutines)
                     st.(stdout) st.(stderr))
| step_go st address rest conn :
    st.(pc) = AtGo address rest ->
    step st (mkState (AtSend rest) st.(chanLen)
                     (st.(goroutines) ++ [attempt address conn])
                     st.(stdout) st.(stderr))
| step_loop_end st :
    st.(pc) = AtSend [] ->
    step st (mkState AtWait st.(chanLen) st.(goroutines) st.(stdout) st.(stderr))
| step_wait st :
    st.(pc) = AtWait ->
    Forall (fun g => g = []) st.(goroutines) ->
    step st (mkState Exited st.(chanLen) st.(goroutines) st.(stdout) st.(stderr))
| step_act st gs1 a k gs2 :
    st.(goroutines) = (gs1 ++ (a :: k) :: gs2)%list ->
    enabled a st ->
    step st (act a (gs1 ++ k :: gs2) st).

(** The states the program can be in, from the start of the loop. *)
Inductive reachable (addresses : list string) : state -> Prop :=
| reach_start : reachable addresses (mkState (AtSend addresses) 0 [] [] [])
| reach_step st st' :
    reachable addresses st -> step st st' -> reachable addresses st'.

Definition isRelease (a : action) : bool :=
  match a with Release => true | _ => false end.

Definition isDial (a : action) : bool :=
  match a with Dial _ _ => true | _ => false end.

(** A goroutine holds its slot until it has received from the channel. *)
Definition holdsSlot (g : list action) : bool := existsb isRelease g.

(** The attempts in flight: the goroutines that hold a slot. *)
Definition inFlight (st : state) : nat :=
  List.length (filter holdsSlot st.(goroutines)).

(** The attempts whose connect call has not returned yet. *)
Definition dialing (st : state) : nat :=
  List.length (filter (existsb isDial) st.(goroutines)).

(** The lines a sequence of actions writes. *)
Definition stdoutOf (l : list action) : list string :=
  flat_map (fun a => match a with Stdout line => [line] | _ => [] end) l.

Definition stderrOf (l : list action) : list string :=
  flat_map (fun a => match a with Stderr line => [line] | _ => [] end) l.

Definition closedOf (l : list action) : list Conn :=
  flat_map (fun a => match a with CloseConn c => [c] | _ => [] end) l.

(** [a] is performed at some point before [b]. *)
Definition before (a b : action) (l : list action) : Prop :=
  exists l1 l2 l3, l = (l1 ++ a :: l2 ++ b :: l3)%list.

End Prober.

Arguments Dial {Conn} address conn.
Arguments Stdout {Conn} line.
Arguments Stderr {Conn} line.
Arguments CloseConn {Conn} conn.
Arguments Release {Conn}.
Arguments attempt {Conn} Close address conn.
Arguments mkState {Conn} pc chanLen goroutines stdout stderr.
Arguments pc {Conn} s.
Arguments chanLen {Conn} s.
Arguments goroutines {Conn} s.
Arguments stdout {Conn} s.
Arguments stderr {Conn} s.
Arguments enabled {Conn} a st.
Arguments act {Conn} a gs st.
Arguments step {Conn} Close NumCPU _ _.
Arguments reachable {Conn} Close NumCPU addresses _.
Arguments isRelease {Conn} a.
Arguments isDial {Conn} a.
Arguments holdsSlot {Conn} g.
Arguments inFlight {Conn} st.
Arguments dialing {Conn} st.
Arguments stdoutOf {Conn} l.
Arguments stderrOf {Conn} l.
Arguments closedOf {Conn} l.
Arguments before {Conn} a b l.

(** ** Notions used to state the properties *)

(** The integers [lo], [lo+1], ..., [lo+n-1]. *)
Fixpoint Zseq (lo : Z) (n : nat) : list Z :=
  match n with
  | O => []
  | S n' => lo :: Zseq (lo + 1) n'
  end.

(** The ports of the closed interval [[lo, hi]], in ascending order. *)
Definition portsBetween (lo hi : Z) : list Z := Zseq lo (Z.to_nat (hi - lo + 1)).

(** The endpoint of [host] for port number [i], as the expander builds it. *)
Definition endpoint (host : string) (i : Z) : string :=
  net.JoinHostPort host (strconv.FormatInt i).

(** The bounds check that [getPorts] makes on [start]. *)
Definition inPortRange (v : Z) : bool := negb ((v >? portRangeEnd) || (v <? 1)).

(** The tokens the expander drops: the empty text, a text that is not a
    number (alone or as a bound of a range), a number below 1 or above
    65535, and a text with more than one dash. *)
Inductive malformed : string -> Prop :=
| mal_empty : malformed ""
| mal_not_number s :
    strings.containsByte s "-" = false -> strconv.Atoi s = None -> malformed s
| mal_bound_not_number a b :
    strings.containsByte a "-" = false -> strings.containsByte b "-" = false ->
    strconv.Atoi a = None \/ strconv.Atoi b = None ->
    malformed (a ++ "-" ++ b)
| mal_out_of_range s v :
    strings.containsByte s "-" = false -> strconv.Atoi s = Some v ->
    v < 1 \/ 65535 < v -> malformed s
| mal_dashes a b c : malformed (a ++ "-" ++ b ++ "-" ++ c).

Definition commaFree (t : string) : Prop := strings.containsByte t "," = false.

(** The slots that the goroutines [gs] still have to give back. *)
Definition slots {Conn : Type} (gs : list (list (action Conn))) : nat :=
  list_sum (map (fun g => List.length (filter isRelease g)) gs).

Definition goFlag (p : mainpc) : nat :=
  match p with AtGo _ _ => 1%nat | _ => 0%nat end.

(** What is left of an attempt is nothing, or ends with its only release. *)
Definition wellFormed {Conn : Type} (g : list (action Conn)) : Prop :=
  g = [] \/ exists mid, g = (mid ++ [Release])%list /\ filter isRelease mid = [].

(** Every value in the channel belongs to a goroutine that has not released
    it yet, or to the send that [main] has just done. *)
Definition invariant {Conn : Type} (NumCPU : nat) (st : state Conn) : Prop :=
  (st.(chanLen) <= workers NumCPU)%nat /\
  (slots st.(goroutines) + goFlag st.(pc) = st.(chanLen))%nat /\
  Forall wellFormed st.(goroutines).

(** The claim that the slot is given back before the attempt writes
    anything. *)
Definition isOutput {Conn : Type} (a : action Conn) : bool :=
  match a with Stdout _ | Stderr _ => true | _ => false end.

Definition releasedBeforeOutput {Conn : Type} (l : list (action Conn)) : Prop :=
  forall a, In a l -> isOutput a = true -> before Release a l.

(** An address of [host] whose port text reads as a number from 1 up. *)
Definition validEndpoint (host address : string) : Prop :=
  exists port v,
    address = net.JoinHostPort host port /\ strconv.Atoi port = Some v /\ 1 <= v.

(** The addresses that [main] still has to start an attempt for. *)
Definition pending (p : mainpc) : list string :=
  match p with
  | AtSend rest => rest
  | AtGo address rest => address :: rest
  | AtWait | Exited => []
  end.

(** A bound on the steps the program has left: a send, the start of a
    goroutine and its five actions at most for each address to come, the end
    of the loop and the wait. *)
Definition mainSteps (p : mainpc) : nat :=
  match p with
  | AtSend rest => 7 * List.length rest + 2
  | AtGo _ rest => 7 * List.length rest + 8
  | AtWait => 1
  | Exited => 0
  end%nat.

Definition stepsLeft {Conn : Type} (st : state Conn) : nat :=
  (mainSteps st.(pc) + list_sum (map (@List.length _) st.(goroutines)))%nat.

(** The states reached after exactly [n] steps. *)
Inductive reachableIn {Conn : Type} (Close : Conn -> option string)
          (NumCPU : nat) (addresses : list string) : nat -> state Conn -> Prop :=
| reachIn_start :
    reachableIn Close NumCPU addresses 0 (mkState (AtSend addresses) 0 [] [] [])
| reachIn_step n st st' :
    reachableIn Close NumCPU addresses n st -> step Close NumCPU st st' ->
    reachableIn Close NumCPU addresses (S n) st'.

(** The lines the program can write. *)
Definition successLine (addresses : list string) (line : string) : Prop :=
  exists address, In address addresses /\ line = "SUCCESS: " ++ address ++ newline.

Definition closeErrorLine {Conn : Type} (Close : Conn -> option string)
           (line : string) : Prop :=
  exists c errE,
    Close c = Some errE /\ line = "error closing connection: " ++ errE ++ newline.

Definition expectedAction {Conn : Type} (Close : Conn -> option string)
           (addresses : list string) (a : action Conn) : Prop :=
  match a with
  | Stdout line => successLine addresses line
  | Stderr line => closeErrorLine Close line
  | _ => True
  end.

(** The SUCCESS lines that the goroutines [gs] have still to write. *)
Definition linesToCome {Conn : Type} (gs : list (list (action Conn))) : nat :=
  list_sum (map (fun g => List.length (stdoutOf g)) gs).

(** * Proofs *)

(** ** Facts about the library models *)

Section LibraryFacts.

Import strconv strings net.

Lemma to_int_nonnil (i : Z) :
  Z.to_int i <> Decimal.Pos Decimal.Nil /\ Z.to_int i <> Decimal.Neg Decimal.Nil.
Proof.
  destruct i as [|p|p]; simpl; split; try discriminate;
    intros H; injection H as H;
    exact (DecimalPos.Unsigned.to_uint_nonnil p H).
Qed.

(** The decimal text read back is the number it was printed from. *)
Lemma FormatInt_read (i : Z) :
  option_map Z.of_int (NilZero.int_of_string (FormatInt i)) = Some i.
Proof.
  unfold FormatInt. destruct (to_int_nonnil i) as [H1 H2].
  rewrite NilZero.isi by assumption. simpl.
  now rewrite DecimalZ.of_to.
Qed.

Lemma FormatInt_inj (i j : Z) : FormatInt i = FormatInt j -> i = j.
Proof.
  intros E. pose proof (FormatInt_read i) as Hi.
  rewrite E, FormatInt_read in Hi. now injection Hi.
Qed.

Lemma isDigit_neq (c d : ascii) :
  isDigit c = true -> isDigit d = false -> Ascii.eqb c d = false.
Proof.
  intros Hc Hd. destruct (Ascii.eqb c d) eqn:E; [|reflexivity].
  apply Ascii.eqb_eq in E. congruence.
Qed.

Lemma parseDigits_noByte (c : ascii) (s : string) :
  isDigit c = false ->
  forall n v, parseDigits s n = Some v -> containsByte s c = false.
Proof.
  intros Hc. induction s as [|ch s IH]; intros n v H; simpl in *.
  - reflexivity.
  - destruct (isDigit ch) eqn:D; [|discriminate].
    rewrite (isDigit_neq _ _ D Hc). simpl. eauto.
Qed.

Lemma parseDigits_nonneg (s : string) :
  forall n v, 0 <= n -> parseDigits s n = Some v -> 0 <= v.
Proof.
  induction s as [|ch s IH]; intros n v Hn H; simpl in *.
  - congruence.
  - destruct (isDigit ch) eqn:D; [|discriminate].
    refine (IH _ _ _ H).
    unfold isDigit in D. apply andb_true_iff in D as [D1 D2].
    apply Nat.leb_le in D1. unfold digitVal. lia.
Qed.

(** A text that [Atoi] reads as a positive number has no byte other than
    digits and a leading plus sign. *)
Lemma Atoi_positive_noByte (c : ascii) (s : string) (v : Z) :
  Atoi s = Some v -> 1 <= v ->
  isDigit c = false -> c <> "+"%char ->
  containsByte s c = false.
Proof.
  intros H Hv Hc Hplus. destruct s as [|c0 s']; [discriminate|].
  unfold Atoi in H.
  destruct (Ascii.eqb c0 "-") eqn:Eneg.
  - cbn -[parseDigits minInt64 maxInt64] in H.
    destruct s' as [|c1 s'']; [discriminate|].
    destruct (parseDigits (String c1 s'') 0) as [n|] eqn:P; [|discriminate].
    apply parseDigits_nonneg in P; [|lia].
    match type of H with
    | (if ?b then _ else _) = _ => destruct b; [|discriminate]
    end.
    injection H as <-. lia.
  - destruct (Ascii.eqb c0 "+") eqn:Eplus;
      cbn -[parseDigits minInt64 maxInt64] in H.
    + destruct s' as [|c1 s'']; [discriminate|].
      destruct (parseDigits (String c1 s'') 0) as [n|] eqn:P; [|discriminate].
      apply Ascii.eqb_eq in Eplus. subst c0.
      change (containsByte (String "+" (String c1 s'')) c)
        with (Ascii.eqb "+" c || containsByte (String c1 s'') c).
      rewrite (parseDigits_noByte c _ Hc _ _ P).
      destruct (Ascii.eqb "+" c) eqn:E; [|reflexivity].
      apply Ascii.eqb_eq in E. congruence.
    + destruct (parseDigits (String c0 s') 0) as [n|] eqn:P; [|discriminate].
      exact (parseDigits_noByte c _ Hc _ _ P).
Qed.

Lemma cutAll_noSep (sep : ascii) (s : string) :
  containsByte s sep = false -> cutAll s sep = (s, []).
Proof.
  induction s as [|c s IH]; simpl; intros H; [reflexivity|].
  apply orb_false_iff in H as [H1 H2].
  rewrite (IH H2), H1. reflexivity.
Qed.

Lemma Split_noSep (sep : ascii) (s : string) :
  containsByte s sep = false -> Split s sep = [s].
Proof. intros H. unfold Split. now rewrite cutAll_noSep. Qed.

(** Splitting [a ++ sep ++ b] when [a] has no separator. *)
Lemma Split_app (sep : ascii) (a b : string) :
  containsByte a sep = false ->
  Split (a ++ String sep b) sep = a :: Split b sep.
Proof.
  unfold Split. induction a as [|c a IH]; simpl; intros H.
  - rewrite Ascii.eqb_refl. destruct (cutAll b sep); reflexivity.
  - apply orb_false_iff in H as [H1 H2].
    specialize (IH H2).
    destruct (cutAll (a ++ String sep b) sep) as [h t].
    destruct (cutAll b sep) as [h' t'].
    rewrite H1. now inversion IH.
Qed.

Lemma Split_cons (sep : ascii) (s : string) :
  exists h t, Split s sep = h :: t.
Proof. unfold Split. destruct (cutAll s sep) as [h t]. eauto. Qed.

(** Tokens without a separator, joined by the separator, split back into
    themselves. *)
Lemma Split_concat (sep : ascii) (l : list string) :
  l <> [] ->
  Forall (fun t => containsByte t sep = false) l ->
  Split (String.concat (String sep "") l) sep = l.
Proof.
  induction l as [|t l IH]; intros Hne Hall; [congruence|].
  inversion Hall as [|? ? Ht Hl]; subst.
  destruct l as [|t' l'].
  - simpl. now apply Split_noSep.
  - change (String.concat (String sep "") (t :: t' :: l'))
      with (t ++ String sep (String.concat (String sep "") (t' :: l'))).
    rewrite Split_app by assumption.
    f_equal. apply IH; [discriminate | assumption].
Qed.

Lemma append_inj_r (a x y : string) : a ++ x = a ++ y -> x = y.
Proof.
  induction a as [|c a IH]; simpl; intros H; [assumption|].
  injection H as H. auto.
Qed.

Lemma JoinHostPort_inj (host p q : string) :
  JoinHostPort host p = JoinHostPort host q -> p = q.
Proof.
  unfold JoinHostPort. destruct (containsByte host ":"); intros H.
  - apply append_inj_r in H. apply append_inj_r in H.
    now apply append_inj_r in H.
  - apply append_inj_r in H. now apply append_inj_r in H.
Qed.

End LibraryFacts.

(** ** Facts about the expander's loops *)

Section ExpanderFacts.

Import strconv strings net.

Lemma Zseq_length lo n : List.length (Zseq lo n) = n.
Proof. revert lo; induction n; intros; simpl; auto. Qed.

Lemma Zseq_In lo n x : In x (Zseq lo n) <-> lo <= x < lo + Z.of_nat n.
Proof.
  revert lo; induction n as [|n IH]; intros lo; simpl.
  - lia.
  - rewrite IH. lia.
Qed.

Lemma Zseq_NoDup lo n : NoDup (Zseq lo n).
Proof.
  revert lo; induction n as [|n IH]; intros lo; simpl; constructor; auto.
  rewrite Zseq_In. lia.
Qed.

Lemma Zseq_nth lo n k :
  (k < n)%nat -> nth_error (Zseq lo n) k = Some (lo + Z.of_nat k).
Proof.
  revert lo k; induction n as [|n IH]; intros lo k Hk; [lia|].
  destruct k as [|k]; simpl.
  - f_equal. lia.
  - rewrite IH by lia. f_equal. lia.
Qed.

Lemma wrap64_id z : minInt64 <= z <= maxInt64 -> wrap64 z = z.
Proof.
  unfold wrap64, minInt64, maxInt64. intros H.
  rewrite Z.mod_small; lia.
Qed.

(** A loop whose bounds are in order and below the largest [int64] runs
    [e - i + 1] times and appends the decimal text of each value. *)
Lemma portLoop_run n : forall fuel i e toReturn,
  (n <= fuel)%nat -> e - i + 1 = Z.of_nat n ->
  minInt64 <= i -> e < maxInt64 ->
  portLoop fuel i e toReturn
  = Ret (toReturn ++ map FormatInt (Zseq i n))%list.
Proof.
  induction n as [|n IH]; intros fuel i e acc Hf Hn Hi He.
  - assert (E : (i <=? e) = false) by (apply Z.leb_gt; lia).
    destruct fuel; simpl; rewrite E, app_nil_r; reflexivity.
  - destruct fuel as [|fuel]; [lia|].
    assert (E : (i <=? e) = true) by (apply Z.leb_le; lia).
    simpl. rewrite E.
    rewrite wrap64_id by lia.
    rewrite (IH fuel (i + 1) e) by lia.
    now rewrite <- app_assoc.
Qed.

Lemma portLoop_empty fuel i e toReturn :
  e < i -> portLoop fuel i e toReturn = Ret toReturn.
Proof.
  intros H. assert (E : (i <=? e) = false) by (apply Z.leb_gt; lia).
  destruct fuel; simpl; rewrite E; reflexivity.
Qed.

Lemma joinAll_map host r : joinAll host r = map (JoinHostPort host) r.
Proof.
  unfold joinAll.
  enough (G : forall acc,
             fold_left (fun toReturn j => toReturn ++ [JoinHostPort host j])%list r acc
             = (acc ++ map (JoinHostPort host) r)%list) by apply (G []).
  induction r as [|j r IH]; intros acc; simpl.
  - now rewrite app_nil_r.
  - rewrite IH, <- app_assoc. reflexivity.
Qed.

Lemma tokenLoop_app fuel host l1 l2 addresses :
  tokenLoop fuel host (l1 ++ l2) addresses
  = (a <- tokenLoop fuel host l1 addresses ;; tokenLoop fuel host l2 a).
Proof.
  revert addresses; induction l1 as [|t l1 IH]; intros acc; simpl.
  - reflexivity.
  - destruct (getPorts fuel t) as [[r|]| |]; simpl; auto.
Qed.

Lemma fullScan_from host n : forall a addresses,
  (1 <= a)%nat ->
  fold_left
    (fun addresses i =>
       if i =? 0 then addresses
       else (addresses ++ [JoinHostPort host (FormatInt i)])%list)
    (map Z.of_nat (seq a n)) addresses
  = (addresses ++ map (endpoint host) (Zseq (Z.of_nat a) n))%list.
Proof.
  induction n as [|n IH]; intros a acc Ha.
  - simpl. now rewrite app_nil_r.
  - assert (E : (Z.of_nat a =? 0) = false) by (apply Z.eqb_neq; lia).
    cbn [seq map fold_left Zseq].
    rewrite E, IH by lia. rewrite <- app_assoc.
    replace (Z.of_nat (S a)) with (Z.of_nat a + 1) by lia.
    reflexivity.
Qed.

(** The full scan visits the values [1 .. n-1] of [range n]. *)
Lemma fullScan_eq host addresses :
  fullScan host addresses
  = (addresses ++ map (endpoint host)
                      (Zseq 1 (Z.to_nat (portRangeEnd - 1))))%list.
Proof.
  unfold fullScan, rangeInt.
  replace (Z.to_nat portRangeEnd) with (S (Z.to_nat (portRangeEnd - 1)))
    by (unfold portRangeEnd; lia).
  generalize (Z.to_nat (portRangeEnd - 1)) as n. intros n.
  change (seq 0 (S n)) with (0%nat :: seq 1 n).
  rewrite map_cons. simpl fold_left.
  now rewrite fullScan_from.
Qed.

Lemma inPortRange_iff v : inPortRange v = true <-> 1 <= v <= portRangeEnd.
Proof.
  unfold inPortRange. rewrite negb_true_iff, orb_false_iff.
  rewrite Z.gtb_ltb, !Z.ltb_ge. lia.
Qed.

(** [getPorts] on a token without a dash. *)
Lemma getPorts_single fuel tok :
  containsByte tok "-" = false ->
  getPorts fuel tok
  = Ret match Atoi tok with
        | Some v => if inPortRange v then Some [tok] else None
        | None => None
        end.
Proof.
  intros H. unfold getPorts, inPortRange. rewrite (Split_noSep _ _ H).
  destruct (Atoi tok) as [v|]; [|reflexivity].
  destruct ((v >? portRangeEnd) || (v <? 1)); reflexivity.
Qed.

(** [getPorts] on a token with exactly one dash. *)
Lemma getPorts_pair fuel a b :
  containsByte a "-" = false -> containsByte b "-" = false ->
  getPorts fuel (a ++ "-" ++ b)
  = match Atoi a, Atoi b with
    | Some start, Some e =>
        if inPortRange start
        then toReturn <- portLoop fuel start e [] ;; Ret (Some toReturn)
        else Ret None
    | _, _ => Ret None
    end.
Proof.
  intros Ha Hb. unfold getPorts, inPortRange.
  change (a ++ "-" ++ b) with (a ++ String "-" b).
  rewrite (Split_app _ _ _ Ha), (Split_noSep _ _ Hb).
  destruct (Atoi a) as [start|]; [|reflexivity].
  destruct ((start >? portRangeEnd) || (start <? 1)); simpl.
  - destruct (Atoi b); reflexivity.
  - destruct (Atoi b); reflexivity.
Qed.

(** [getPorts] on a token with two dashes or more. *)
Lemma getPorts_many fuel a b c :
  getPorts fuel (a ++ "-" ++ b ++ "-" ++ c) = Ret None.
Proof.
  unfold getPorts.
  assert (E : exists s0 s1 s2 rest,
             Split (a ++ "-" ++ b ++ "-" ++ c) "-" = s0 :: s1 :: s2 :: rest).
  { unfold Split. induction a as [|ch a IH].
    - change ("" ++ "-" ++ b ++ "-" ++ c) with (String "-" (b ++ String "-" c)).
      cbn [cutAll]. rewrite Ascii.eqb_refl.
      induction b as [|ch b IHb].
      + change ("" ++ String "-" c) with (String "-" c).
        cbn [cutAll]. rewrite Ascii.eqb_refl.
        destruct (cutAll c "-") as [h t]. eauto.
      + change (String ch b ++ String "-" c) with (String ch (b ++ String "-" c)).
        cbn [cutAll].
        destruct (cutAll (b ++ String "-" c) "-") as [h t].
        destruct IHb as (s0 & s1 & s2 & rest & E). inversion E; subst.
        destruct (Ascii.eqb ch "-"); eauto.
    - change (String ch a ++ "-" ++ b ++ "-" ++ c)
        with (String ch (a ++ "-" ++ b ++ "-" ++ c)).
      cbn [cutAll].
      destruct (cutAll (a ++ "-" ++ b ++ "-" ++ c) "-") as [h t].
      destruct IH as (s0 & s1 & s2 & rest & E). inversion E; subst.
      destruct (Ascii.eqb ch "-"); eauto. }
  destruct E as (s0 & s1 & s2 & rest & ->).
  destruct (Atoi s0) as [start|]; [|reflexivity].
  destruct ((start >? portRangeEnd) || (start <? 1)); reflexivity.
Qed.

(** With a port argument, [getAddresses] runs the token loop on its pieces. *)
Lemma getAddresses_ports fuel prog host ports extra :
  getAddresses fuel (prog :: host :: ports :: extra)
  = tokenLoop fuel host (Split ports ",") [].
Proof. reflexivity. Qed.

Lemma getAddresses_all fuel prog host :
  getAddresses fuel [prog; host]
  = Ret (map (endpoint host) (Zseq 1 (Z.to_nat (portRangeEnd - 1)))).
Proof.
  unfold getAddresses.
  change (List.length [prog; host] <? 2)%nat with false.
  change (List.length [prog; host] =? 2)%nat with true.
  change (2 <? List.length [prog; host])%nat with false.
  cbv iota. cbv zeta. change (nth 1 [prog; host] "") with host.
  now rewrite fullScan_eq.
Qed.



(** A token that yields [nil] leaves the addresses as they are. *)
Lemma tokenLoop_skip fuel host tok pre post addresses :
  getPorts fuel tok = Ret None ->
  tokenLoop fuel host (pre ++ tok :: post) addresses
  = tokenLoop fuel host (pre ++ post) addresses.
Proof.
  intros H. rewrite !tokenLoop_app.
  destruct (tokenLoop fuel host pre addresses); simpl; auto.
  now rewrite H.
Qed.

(** A token that yields the ports [r] appends their endpoints. *)
Lemma tokenLoop_emit fuel host tok r pre post addresses :
  getPorts fuel tok = Ret (Some r) ->
  tokenLoop fuel host (pre ++ tok :: post) addresses
  = (a <- tokenLoop fuel host pre addresses ;;
     tokenLoop fuel host post (a ++ map (JoinHostPort host) r)%list).
Proof.
  intros H. rewrite tokenLoop_app.
  destruct (tokenLoop fuel host pre addresses); cbn [bind tokenLoop]; auto.
  rewrite H. cbn [bind]. now rewrite joinAll_map.
Qed.

Lemma Atoi_port_noDash s v :
  Atoi s = Some v -> 1 <= v -> containsByte s "-" = false.
Proof.
  intros H Hv. apply (Atoi_positive_noByte _ _ _ H Hv); [reflexivity|discriminate].
Qed.

Lemma Atoi_port_noComma s v :
  Atoi s = Some v -> 1 <= v -> containsByte s "," = false.
Proof.
  intros H Hv. apply (Atoi_positive_noByte _ _ _ H Hv); [reflexivity|discriminate].
Qed.

Lemma containsByte_app s t c :
  containsByte (s ++ t) c = containsByte s c || containsByte t c.
Proof.
  induction s as [|ch s IH]; simpl; [reflexivity|].
  now rewrite IH, orb_assoc.
Qed.

Lemma endpoints_NoDup host l : NoDup l -> NoDup (map (endpoint host) l).
Proof.
  apply Injective_map_NoDup. intros i j H.
  apply FormatInt_inj. exact (JoinHostPort_inj _ _ _ H).
Qed.

(** What the loop returns is what it was given followed by canonical
    decimal texts. *)
Lemma portLoop_canonical fuel : forall i e toReturn r,
  portLoop fuel i e toReturn = Ret r ->
  exists l, r = (toReturn ++ map FormatInt l)%list.
Proof.
  induction fuel as [|fuel IH]; intros i e acc r H; simpl in H;
    destruct (i <=? e); try discriminate.
  - injection H as <-. exists []. now rewrite app_nil_r.
  - apply IH in H as [l ->]. exists (i :: l). now rewrite <- app_assoc.
  - injection H as <-. exists []. now rewrite app_nil_r.
Qed.

End ExpanderFacts.

(** ** The expander's properties *)

Section ExpanderClaims.

Import strconv strings net.

(** C1, on the code: with no port argument the expander returns the
    endpoints of the ports 1 to 65534, in order: 65534 of them, and none
    for port 65535. *)
Theorem full_scan_stops_at_65534 (fuel : nat) (prog host : string) :
  exists l,
    getAddresses fuel [prog; host] = Ret l /\
    l = map (endpoint host) (portsBetween 1 65534) /\
    Z.of_nat (List.length l) = 65534 /\
    NoDup l /\
    ~ In (endpoint host 65535) l.
Proof.
  eexists. split; [apply getAddresses_all|].
  split; [reflexivity|]. split; [|split].
  - rewrite length_map, Zseq_length. reflexivity.
  - apply endpoints_NoDup, Zseq_NoDup.
  - intros H. apply in_map_iff in H as (i & E & Hi).
    apply JoinHostPort_inj, FormatInt_inj in E. subst i.
    apply Zseq_In in Hi. unfold portRangeEnd in Hi. lia.
Qed.

(** C2, on the code: the range token 80-70000, whose high bound is above
    65535, is not dropped: the expander returns the 69921 endpoints of the
    ports 80 to 70000, port 70000 among them. *)
Theorem high_bound_not_checked :
  getPorts (Z.to_nat 69921) "80-70000" = Ret (Some (map FormatInt (portsBetween 80 70000))) /\
  getAddresses (Z.to_nat 69921) ["portcheck"; "h"; "80-70000"]
  = Ret (map (endpoint "h") (portsBetween 80 70000)) /\
  Z.of_nat (List.length (map (endpoint "h") (portsBetween 80 70000))) = 69921 /\
  In "h:70000" (map (endpoint "h") (portsBetween 80 70000)).
Proof.
  assert (G : getPorts (Z.to_nat 69921) "80-70000"
              = Ret (Some (map FormatInt (portsBetween 80 70000)))).
  { change "80-70000" with ("80" ++ "-" ++ "70000").
    rewrite getPorts_pair by reflexivity.
    change (Atoi "80") with (Some 80). change (Atoi "70000") with (Some 70000).
    change (inPortRange 80) with true. cbv iota.
    rewrite (portLoop_run (Z.to_nat 69921)); [reflexivity| | |unfold minInt64|unfold maxInt64]; lia. }
  split; [exact G|]. split; [|split].
  - rewrite getAddresses_ports.
    change (Split "80-70000" ",") with ["80-70000"].
    rewrite (tokenLoop_emit _ _ _ _ [] [] [] G).
    cbn [tokenLoop bind app]. unfold endpoint. now rewrite map_map.
  - rewrite length_map. unfold portsBetween. rewrite Zseq_length. reflexivity.
  - change "h:70000" with (endpoint "h" 70000). apply in_map.
    apply Zseq_In. lia.
Qed.

(** C5: a range token whose bounds are both valid ports, the low one above
    the high one, yields no endpoint and no error; the tokens around it are
    expanded as if it were not there. *)
Theorem reversed_range_is_empty
  (fuel : nat) (prog host a b : string) (extra : list string) (lo hi : Z) :
  Atoi a = Some lo -> Atoi b = Some hi ->
  1 <= lo <= 65535 -> 1 <= hi <= 65535 -> hi < lo ->
  getPorts fuel (a ++ "-" ++ b) = Ret (Some []) /\
  getAddresses fuel (prog :: host :: (a ++ "-" ++ b) :: extra) = Ret [] /\
  forall pre post addresses,
    tokenLoop fuel host (pre ++ (a ++ "-" ++ b) :: post) addresses
    = tokenLoop fuel host (pre ++ post) addresses.
Proof.
  intros Ha Hb Hlo Hhi Hrev.
  pose proof (Atoi_port_noDash _ _ Ha (proj1 Hlo)) as Da.
  pose proof (Atoi_port_noDash _ _ Hb (proj1 Hhi)) as Db.
  assert (G : getPorts fuel (a ++ "-" ++ b) = Ret (Some [])).
  { rewrite getPorts_pair, Ha, Hb by assumption.
    rewrite (proj2 (inPortRange_iff lo)) by (unfold portRangeEnd; lia).
    now rewrite portLoop_empty by lia. }
  split; [exact G|]. split.
  - rewrite getAddresses_ports, Split_noSep.
    + rewrite (tokenLoop_emit _ _ _ _ [] [] [] G). reflexivity.
    + rewrite !containsByte_app.
      rewrite (Atoi_port_noComma _ _ Ha (proj1 Hlo)).
      now rewrite (Atoi_port_noComma _ _ Hb (proj1 Hhi)).
  - intros pre post acc. rewrite (tokenLoop_emit _ _ _ _ pre post acc G).
    rewrite tokenLoop_app.
    destruct (tokenLoop fuel host pre acc); cbn [bind map]; auto.
    now rewrite app_nil_r.
Qed.

(** C6: a range token low-high with 1 <= low <= high <= 65535 yields
    high - low + 1 endpoints, pairwise distinct, the k-th of them for port
    low + k, hence in ascending order and within the bounds; they are
    appended after the endpoints of the tokens to its left and before
    those of the tokens to its right. *)
Theorem range_expansion
  (fuel : nat) (prog host a b : string) (extra : list string) (lo hi : Z) :
  Atoi a = Some lo -> Atoi b = Some hi ->
  1 <= lo -> lo <= hi -> hi <= 65535 ->
  (Z.to_nat (hi - lo + 1) <= fuel)%nat ->
  let endpoints := map (endpoint host) (portsBetween lo hi) in
  getAddresses fuel (prog :: host :: (a ++ "-" ++ b) :: extra) = Ret endpoints /\
  Z.of_nat (List.length endpoints) = hi - lo + 1 /\
  NoDup endpoints /\
  (forall k, (k < List.length endpoints)%nat ->
             nth_error endpoints k = Some (endpoint host (lo + Z.of_nat k))) /\
  (forall i, In i (portsBetween lo hi) <-> lo <= i <= hi) /\
  (forall pre post addresses,
     tokenLoop fuel host (pre ++ (a ++ "-" ++ b) :: post) addresses
     = (done <- tokenLoop fuel host pre addresses ;;
        tokenLoop fuel host post (done ++ endpoints)%list)).
Proof.
  intros Ha Hb Hlo Hle Hhi Hfuel endpoints.
  pose proof (Atoi_port_noDash _ _ Ha Hlo) as Da.
  pose proof (Atoi_port_noDash _ _ Hb ltac:(lia)) as Db.
  assert (G : getPorts fuel (a ++ "-" ++ b)
              = Ret (Some (map FormatInt (portsBetween lo hi)))).
  { rewrite getPorts_pair, Ha, Hb by assumption.
    rewrite (proj2 (inPortRange_iff lo)) by (unfold portRangeEnd; lia).
    rewrite (portLoop_run (Z.to_nat (hi - lo + 1)));
      [reflexivity|assumption|lia|unfold minInt64; lia|unfold maxInt64; lia]. }
  assert (E : map (JoinHostPort host) (map FormatInt (portsBetween lo hi))
              = endpoints) by (unfold endpoints, endpoint; now rewrite map_map).
  assert (L : List.length endpoints = Z.to_nat (hi - lo + 1))
    by (unfold endpoints, portsBetween; now rewrite length_map, Zseq_length).
  repeat split.
  - rewrite getAddresses_ports, Split_noSep.
    + rewrite (tokenLoop_emit _ _ _ _ [] [] [] G), E. reflexivity.
    + rewrite !containsByte_app.
      rewrite (Atoi_port_noComma _ _ Ha Hlo).
      now rewrite (Atoi_port_noComma _ _ Hb ltac:(lia)).
  - rewrite L. lia.
  - apply endpoints_NoDup, Zseq_NoDup.
  - intros k Hk. unfold endpoints, portsBetween.
    rewrite nth_error_map, Zseq_nth by lia. reflexivity.
  - apply Zseq_In in H. lia.
  - apply Zseq_In in H. lia.
  - intros H. apply Zseq_In. lia.
  - intros pre post acc. now rewrite (tokenLoop_emit _ _ _ _ pre post acc G), E.
Qed.

(** The scenarios of the specification: a mix of ports and a range, a port
    above 65535, a reversed range. *)
Example scenario_mixed :
  getAddresses 3 ["portcheck"; "127.0.0.1"; "80,443,8000-8002"]
  = Ret ["127.0.0.1:80"; "127.0.0.1:443"; "127.0.0.1:8000"; "127.0.0.1:8001";
         "127.0.0.1:8002"].
Proof. reflexivity. Qed.

Example scenario_too_high :
  getAddresses 0 ["portcheck"; "127.0.0.1"; "70000"] = Ret [].
Proof. reflexivity. Qed.

Example scenario_reversed :
  getAddresses 0 ["portcheck"; "127.0.0.1"; "10-5"] = Ret [].
Proof. reflexivity. Qed.

Lemma malformed_nil fuel tok : malformed tok -> getPorts fuel tok = Ret None.
Proof.
  intros [ | s Hs Hn | a b Ha Hb Hn | s v Hs Hv Hr | a b c].
  - reflexivity.
  - now rewrite getPorts_single, Hn.
  - rewrite getPorts_pair by assumption.
    destruct Hn as [-> | ->]; [reflexivity|].
    destruct (Atoi a) as [start|]; [|reflexivity].
    now destruct (inPortRange start).
  - rewrite getPorts_single, Hv by assumption.
    destruct (inPortRange v) eqn:E; [|reflexivity].
    apply inPortRange_iff in E. unfold portRangeEnd in E. lia.
  - apply getPorts_many.
Qed.

Example malformed_examples :
  malformed "" /\ malformed "abc" /\ malformed "0" /\ malformed "65536" /\
  malformed "1-2-3" /\ malformed "80-x".
Proof.
  repeat split.
  - constructor.
  - now apply mal_not_number.
  - apply (mal_out_of_range "0" 0); [reflexivity|reflexivity|lia].
  - apply (mal_out_of_range "65536" 65536); [reflexivity|reflexivity|lia].
  - apply (mal_dashes "1" "2" "3").
  - apply (mal_bound_not_number "80" "x"); auto.
Qed.

(** C7: a malformed token (empty, not a number, 0, 65536, more than one
    dash) of a comma-separated port argument yields [nil], so no endpoint
    and no error, and the argument expands to what its other tokens yield. *)
Theorem malformed_token_skipped
  (fuel : nat) (prog host tok : string) (pre post extra : list string) :
  malformed tok -> commaFree tok ->
  Forall commaFree pre -> Forall commaFree post ->
  getPorts fuel tok = Ret None /\
  getAddresses fuel
    (prog :: host :: String.concat "," (pre ++ tok :: post) :: extra)
  = tokenLoop fuel host (pre ++ post) [] /\
  ((pre ++ post)%list <> [] ->
   getAddresses fuel
     (prog :: host :: String.concat "," (pre ++ tok :: post) :: extra)
   = getAddresses fuel
       (prog :: host :: String.concat "," (pre ++ post) :: extra)).
Proof.
  intros Hm Htok Hpre Hpost.
  pose proof (malformed_nil fuel _ Hm) as G.
  assert (E : getAddresses fuel
                (prog :: host :: String.concat "," (pre ++ tok :: post) :: extra)
              = tokenLoop fuel host (pre ++ post) []).
  { rewrite getAddresses_ports, Split_concat.
    - now apply tokenLoop_skip.
    - now destruct pre.
    - apply Forall_app. split; [assumption|now constructor]. }
  split; [exact G|]. split; [exact E|].
  intros Hne. rewrite E, getAddresses_ports, Split_concat; auto.
  apply Forall_app. now split.
Qed.

(** C10: a single-port token that parses to a port in [1, 65535] yields one
    endpoint, whose port text is the token as written ("0080" stays
    "0080", "+80" stays "+80"); the ports of a range token are printed
    from the loop counter, in canonical decimal ("0080-0081" yields 80
    and 81). *)
Theorem single_port_verbatim :
  (forall (fuel : nat) (prog host tok : string) (extra : list string) (v : Z),
      containsByte tok "-" = false ->
      Atoi tok = Some v -> 1 <= v <= 65535 ->
      getPorts fuel tok = Ret (Some [tok]) /\
      getAddresses fuel (prog :: host :: tok :: extra)
      = Ret [JoinHostPort host tok]) /\
  (forall (fuel : nat) (a b : string) (r : list string),
      containsByte a "-" = false -> containsByte b "-" = false ->
      getPorts fuel (a ++ "-" ++ b) = Ret (Some r) ->
      exists l, r = map FormatInt l) /\
  getAddresses 0 ["portcheck"; "host"; "0080"] = Ret ["host:0080"] /\
  getAddresses 0 ["portcheck"; "host"; "+80"] = Ret ["host:+80"] /\
  getAddresses 2 ["portcheck"; "host"; "0080-0081"] = Ret ["host:80"; "host:81"].
Proof.
  split; [|split; [|repeat split]].
  - intros fuel prog host tok extra v Hd Hv Hr.
    assert (G : getPorts fuel tok = Ret (Some [tok])).
    { rewrite getPorts_single, Hv by assumption.
      now rewrite (proj2 (inPortRange_iff v)) by (unfold portRangeEnd; lia). }
    split; [exact G|].
    rewrite getAddresses_ports, Split_noSep
      by (apply (Atoi_port_noComma _ _ Hv); lia).
    now rewrite (tokenLoop_emit _ _ _ _ [] [] [] G).
  - intros fuel a b r Ha Hb H.
    rewrite getPorts_pair in H by assumption.
    destruct (Atoi a) as [start|]; [|discriminate].
    destruct (Atoi b) as [e|]; [|discriminate].
    destruct (inPortRange start); [|discriminate].
    destruct (portLoop fuel start e []) as [l| |] eqn:P; try discriminate.
    injection H as <-. exact (portLoop_canonical _ _ _ _ _ P).
Qed.

End ExpanderClaims.

(** ** Facts about the prober *)

Section ProberFacts.

Context {Conn : Type} (Close : Conn -> option string) (NumCPU : nat).

Lemma attempt_eq (address : string) (conn : option Conn) :
  attempt Close address conn
  = (Dial address conn ::
     match conn with
     | Some c =>
         Stdout ("SUCCESS: " ++ address ++ newline) :: CloseConn c ::
         match Close c with
         | Some errE => [Stderr ("error closing connection: " ++ errE ++ newline)]
         | None => []
         end
     | None => []
     end ++ [Release])%list.
Proof.
  unfold attempt. destruct conn as [c|]; [|reflexivity].
  destruct (Close c); reflexivity.
Qed.

Lemma attempt_wellFormed address conn : wellFormed (attempt Close address conn).
Proof.
  right. rewrite attempt_eq. eexists (_ :: _). split; [reflexivity|].
  destruct conn as [c|]; [|reflexivity]. now destruct (Close c).
Qed.

Lemma attempt_slots address conn :
  List.length (filter isRelease (attempt Close address conn)) = 1%nat.
Proof.
  rewrite attempt_eq. destruct conn as [c|]; [|reflexivity].
  now destruct (Close c).
Qed.

Lemma wellFormed_tail (a : action Conn) k : wellFormed (a :: k) -> wellFormed k.
Proof.
  intros [H | (mid & E & F)]; [discriminate|].
  destruct mid as [|m mid]; simpl in E; injection E as Ea Ek; subst.
  - now left.
  - right. exists mid. split; [reflexivity|].
    simpl in F. destruct (isRelease m); [discriminate|assumption].
Qed.

Lemma wellFormed_count (g : list (action Conn)) :
  wellFormed g ->
  List.length (filter isRelease g) = if holdsSlot g then 1%nat else 0%nat.
Proof.
  intros [-> | (mid & -> & F)]; [reflexivity|].
  unfold holdsSlot. rewrite filter_app, F, existsb_app. simpl.
  now rewrite orb_true_r.
Qed.

Lemma wellFormed_dial (g : list (action Conn)) :
  wellFormed g -> existsb isDial g = true -> holdsSlot g = true.
Proof.
  intros [-> | (mid & -> & F)] H; [discriminate|].
  unfold holdsSlot. rewrite existsb_app. simpl. now rewrite orb_true_r.
Qed.

Lemma slots_app (gs1 gs2 : list (list (action Conn))) :
  slots (gs1 ++ gs2) = (slots gs1 + slots gs2)%nat.
Proof. unfold slots. now rewrite map_app, list_sum_app. Qed.

Lemma slots_inFlight (gs : list (list (action Conn))) :
  Forall wellFormed gs -> List.length (filter holdsSlot gs) = slots gs.
Proof.
  induction 1 as [|g gs Hg _ IH]; [reflexivity|].
  unfold slots in *. simpl. rewrite (wellFormed_count g Hg).
  destruct (holdsSlot g); simpl; now rewrite IH.
Qed.

Lemma dialing_inFlight (gs : list (list (action Conn))) :
  Forall wellFormed gs ->
  (List.length (filter (existsb isDial) gs) <= List.length (filter holdsSlot gs))%nat.
Proof.
  induction 1 as [|g gs Hg _ IH]; [reflexivity|]. simpl.
  destruct (existsb isDial g) eqn:D.
  - rewrite (wellFormed_dial g Hg D). simpl. lia.
  - destruct (holdsSlot g); simpl; lia.
Qed.

Lemma invariant_start (addresses : list string) :
  invariant NumCPU (mkState (Conn := Conn) (AtSend addresses) 0 [] [] []).
Proof. repeat split; simpl; auto with arith. Qed.

Lemma act_fields (a : action Conn) gs st :
  pc (act a gs st) = pc st /\ goroutines (act a gs st) = gs /\
  chanLen (act a gs st) = if isRelease a then (chanLen st - 1)%nat else chanLen st.
Proof. destruct a; simpl; auto. Qed.

Lemma invariant_step (st st' : state Conn) :
  invariant NumCPU st -> step Close NumCPU st st' -> invariant NumCPU st'.
Proof.
  intros (Hcap & Hcount & Hwf) Hstep.
  destruct Hstep as [st address rest Hpc Hlt | st address rest conn Hpc
                    | st Hpc | st Hpc Hdone | st gs1 a k gs2 Hgs Hen];
    unfold invariant; simpl.
  - rewrite Hpc in Hcount. simpl in Hcount. repeat split; [lia|lia|assumption].
  - rewrite Hpc in Hcount. simpl in Hcount. repeat split; [assumption| |].
    + rewrite slots_app. unfold slots at 2. simpl. rewrite attempt_slots. lia.
    + apply Forall_app. split; [assumption|].
      constructor; [apply attempt_wellFormed|constructor].
  - rewrite Hpc in Hcount. simpl in Hcount. repeat split; [assumption|lia|assumption].
  - rewrite Hpc in Hcount. simpl in Hcount. repeat split; [assumption|lia|assumption].
  - destruct (act_fields a (gs1 ++ k :: gs2) st) as (-> & -> & ->).
    rewrite Hgs in Hcount, Hwf.
    rewrite slots_app in *. unfold slots in Hcount at 2. unfold slots at 2.
    simpl in Hcount. simpl.
    apply Forall_app in Hwf as [Hwf1 Hwf2].
    inversion Hwf2 as [|? ? Hak Hwf3]; subst.
    repeat split.
    + destruct (isRelease a); lia.
    + destruct a; simpl in *; lia.
    + apply Forall_app. split; [assumption|].
      constructor; [exact (wellFormed_tail _ _ Hak)|assumption].
Qed.

Lemma invariant_reachable (addresses : list string) (st : state Conn) :
  reachable Close NumCPU addresses st -> invariant NumCPU st.
Proof.
  induction 1 as [|st st' _ IH Hstep]; [apply invariant_start|].
  exact (invariant_step _ _ IH Hstep).
Qed.

(** A goroutine that is about to write still holds its slot, and holds it
    after the write. *)
Lemma writer_holds_slot (addresses : list string) (st : state Conn) gs1 a k gs2 :
  reachable Close NumCPU addresses st ->
  goroutines st = (gs1 ++ (a :: k) :: gs2)%list ->
  isOutput a = true ->
  holdsSlot k = true /\ (0 < chanLen st)%nat.
Proof.
  intros Hreach Hgs Hout.
  destruct (invariant_reachable _ _ Hreach) as (_ & Hcount & Hwf).
  rewrite Hgs in Hwf, Hcount. apply Forall_app in Hwf as [_ Hwf].
  inversion Hwf as [|? ? Hak _]; subst.
  assert (Hk : holdsSlot k = true).
  { destruct Hak as [E | (mid & E & F)]; [discriminate|].
    destruct mid as [|m mid]; simpl in E; injection E as Ea Ek; subst.
    - discriminate.
    - unfold holdsSlot. rewrite existsb_app. simpl. now rewrite orb_true_r. }
  split; [exact Hk|].
  rewrite slots_app in Hcount. unfold slots in Hcount at 2. simpl in Hcount.
  pose proof (wellFormed_count _ Hak) as C. unfold holdsSlot in C, Hk.
  simpl in C. rewrite Hk, orb_true_r in C. lia.
Qed.

(** An action that is not the last one is not performed after the last. *)
Lemma before_last (pre : list (action Conn)) (a b : action Conn) :
  ~ In a pre -> ~ before a b (pre ++ [a]).
Proof.
  intros Hnot (l1 & l2 & l3 & E).
  destruct (exists_last (l := b :: l3) ltac:(discriminate)) as (l3' & x & E3).
  rewrite E3 in E.
  replace (l1 ++ a :: l2 ++ l3' ++ [x])%list
    with ((l1 ++ a :: l2 ++ l3') ++ [x])%list in E
    by (rewrite <- !app_assoc; simpl; now rewrite <- app_assoc).
  apply app_inj_tail in E as [-> _].
  apply Hnot, in_elt.
Qed.

Lemma before_tail (pre : list (action Conn)) (a b : action Conn) :
  In a pre -> before a b (pre ++ [b]).
Proof.
  intros H. apply in_split in H as (l1 & l2 & ->).
  exists l1, l2, []. now rewrite <- app_assoc.
Qed.

End ProberFacts.

(** ** The prober's properties *)

Section ProberClaims.

Context {Conn : Type} (Close : Conn -> option string) (NumCPU : nat).

(** C3, as the code has it: the receive that gives the slot back is deferred,
    so it is the last action of every attempt. It comes after the connect
    call and after every line the attempt writes and the close of the
    connection, never before one of them; a failed attempt does nothing
    between its connect call and the release. *)
Theorem release_is_last (address : string) (conn : option Conn) :
  exists pre,
    attempt Close address conn = (pre ++ [Release])%list /\
    ~ In Release pre /\
    (forall a, In a pre ->
               before a Release (attempt Close address conn) /\
               ~ before Release a (attempt Close address conn)) /\
    (forall a, In a (attempt Close address conn) -> isOutput a = true -> In a pre) /\
    (conn = None -> pre = [Dial address None]).
Proof.
  rewrite attempt_eq.
  match goal with
  | |- context [(Dial address conn :: ?r ++ [Release])%list] => set (mid := r)
  end.
  assert (Hnot : ~ In Release (Dial address conn :: mid)).
  { subst mid. destruct conn as [c|]; [destruct (Close c)|]; simpl;
      intuition discriminate. }
  assert (Hfail : conn = None -> Dial address conn :: mid = [Dial address None])
    by (intros ->; reflexivity).
  change (Dial address conn :: mid ++ [Release])%list
    with ((Dial address conn :: mid) ++ [Release])%list.
  revert Hnot Hfail. generalize (Dial address conn :: mid) as pre.
  intros pre Hnot Hfail. exists pre.
  split; [reflexivity|]. split; [exact Hnot|]. split; [|split].
  - intros a Ha. split.
    + now apply before_tail.
    + exact (before_last pre Release a Hnot).
  - intros a Ha Hout.
    apply in_app_or in Ha as [Ha | [<- | []]]; [assumption|discriminate].
  - exact Hfail.
Qed.

(** C4: in every state the program can reach, the attempts in flight are at
    most [workers]; while they are exactly [workers], [main] stays at its
    send and only goroutines move (and one of them can); as soon as they are
    fewer, the send can go through. *)
Theorem in_flight_bounded (addresses : list string) (st : state Conn) :
  reachable Close NumCPU addresses st ->
  (dialing st <= inFlight st <= workers NumCPU)%nat /\
  forall address rest,
    pc st = AtSend (address :: rest) ->
    (inFlight st = workers NumCPU ->
     (forall st', step Close NumCPU st st' -> pc st' = AtSend (address :: rest)) /\
     ((0 < NumCPU)%nat -> exists st', step Close NumCPU st st')) /\
    ((inFlight st < workers NumCPU)%nat ->
     exists st', step Close NumCPU st st' /\ pc st' = AtGo address rest).
Proof.
  intros Hreach.
  destruct (invariant_reachable Close NumCPU _ _ Hreach) as (Hcap & Hcount & Hwf).
  pose proof (slots_inFlight _ Hwf) as Hin. fold (inFlight st) in Hin.
  pose proof (dialing_inFlight _ Hwf) as Hdial.
  fold (inFlight st) in Hdial. fold (dialing st) in Hdial.
  split; [lia|].
  intros address rest Hpc. rewrite Hpc in Hcount. simpl in Hcount.
  split.
  - intros Hfull. split.
    + intros st' Hstep.
      destruct Hstep as [st a r Hpc' Hlt | st a r conn Hpc' | st Hpc'
                        | st Hpc' Hdone | st gs1 a k gs2 Hgs Hen]; simpl.
      * lia.
      * congruence.
      * congruence.
      * congruence.
      * destruct (act_fields a (gs1 ++ k :: gs2) st) as (-> & _). exact Hpc.
    + intros Hcpu.
      assert (Hpos : (0 < List.length (filter holdsSlot (goroutines st)))%nat)
        by (fold (inFlight st); unfold workers in *; lia).
      destruct (filter holdsSlot (goroutines st)) as [|g gs] eqn:F;
        [simpl in Hpos; lia|].
      assert (Hg : In g (filter holdsSlot (goroutines st)))
        by (rewrite F; now left).
      apply filter_In in Hg as [Hg Hhold].
      destruct g as [|a k]; [discriminate|].
      apply in_split in Hg as (gs1 & gs2 & Hgs).
      eexists. apply (step_act _ Close NumCPU st gs1 a k gs2 Hgs).
      destruct a; simpl; auto. unfold workers in *. lia.
  - intros Hfree. eexists. split.
    + apply (step_send _ Close NumCPU st address rest Hpc). lia.
    + reflexivity.
Qed.

(** C8: without the host argument [getAddresses] ends the process through
    [log.Fatal] with the usage message, whatever the loop budget, so [main]
    never gets a list of addresses and the prober has no state to start
    from. *)
Theorem missing_host_is_fatal (fuel : nat) (Args : list string) :
  (List.length Args < 2)%nat ->
  getAddresses fuel Args = Fatal usage /\
  main Conn fuel Args = Fatal usage /\
  forall st, main Conn fuel Args <> Ret st.
Proof.
  intros H. apply Nat.ltb_lt in H.
  assert (G : getAddresses fuel Args = Fatal usage)
    by (unfold getAddresses; now rewrite H).
  unfold main. rewrite G. repeat split. discriminate.
Qed.

(** C9: a successful attempt writes the one line SUCCESS: address to the
    standard output, then closes the connection, and writes the error of the
    close, if any, to the error stream afterwards; the line is the same
    whatever the close answers. A failed attempt writes nothing and closes
    nothing. For a host without a colon the address is host:port. *)
Theorem attempt_output (address : string) (conn : option Conn) :
  match conn with
  | Some c =>
      let success := "SUCCESS: " ++ address ++ newline in
      stdoutOf (attempt Close address conn) = [success] /\
      closedOf (attempt Close address conn) = [c] /\
      before (Stdout success) (CloseConn c) (attempt Close address conn) /\
      stderrOf (attempt Close address conn)
      = match Close c with
        | Some errE => ["error closing connection: " ++ errE ++ newline]
        | None => []
        end /\
      (forall line, In (Stderr line) (attempt Close address conn) ->
                    before (CloseConn c) (Stderr line) (attempt Close address conn))
  | None =>
      stdoutOf (attempt Close address conn) = [] /\
      stderrOf (attempt Close address conn) = [] /\
      closedOf (attempt Close address conn) = []
  end /\
  (forall host port,
      strings.containsByte host ":" = false ->
      address = net.JoinHostPort host port ->
      address = host ++ ":" ++ port).
Proof.
  split.
  - rewrite attempt_eq. destruct conn as [c|]; [|repeat split].
    cbv zeta. destruct (Close c) as [errE|]; repeat split.
    + exists [Dial address (Some c)], []. eexists. reflexivity.
    + intros line [H | [H | [H | [H | [H | []]]]]]; try discriminate.
      injection H as <-.
      exists [Dial address (Some c); Stdout ("SUCCESS: " ++ address ++ newline)], [].
      eexists. reflexivity.
    + exists [Dial address (Some c)], []. eexists. reflexivity.
    + intros line [H | [H | [H | [H | []]]]]; discriminate.
  - intros host port Hh ->. unfold net.JoinHostPort. now rewrite Hh.
Qed.

End ProberClaims.

(** ** The properties at concrete inputs *)

(** The token 10-5 of the specification's scenario. *)
Lemma reversed_range_is_empty_witness :
  strconv.Atoi "10" = Some 10 /\ strconv.Atoi "5" = Some 5 /\
  getAddresses 0 ["portcheck"; "127.0.0.1"; "10-5"] = Ret [].
Proof.
  split; [reflexivity|]. split; [reflexivity|].
  apply (reversed_range_is_empty 0 "portcheck" "127.0.0.1" "10" "5" [] 10 5);
    (reflexivity || lia).
Defined.

(** The token 8000-8002 of the specification's scenario. *)
Lemma range_expansion_witness :
  strconv.Atoi "8000" = Some 8000 /\ strconv.Atoi "8002" = Some 8002 /\
  getAddresses 3 ["portcheck"; "127.0.0.1"; "8000-8002"]
  = Ret ["127.0.0.1:8000"; "127.0.0.1:8001"; "127.0.0.1:8002"].
Proof.
  split; [reflexivity|]. split; [reflexivity|].
  apply (range_expansion 3 "portcheck" "127.0.0.1" "8000" "8002" [] 8000 8002);
    (reflexivity || lia).
Defined.

(** The token abc between two valid ports. *)
Lemma malformed_token_skipped_witness :
  malformed "abc" /\
  getAddresses 0 ["portcheck"; "127.0.0.1"; "80,abc,443"]
  = Ret ["127.0.0.1:80"; "127.0.0.1:443"].
Proof.
  assert (M : malformed "abc") by (apply mal_not_number; reflexivity).
  split; [exact M|].
  assert (C1 : Forall commaFree ["80"]) by (constructor; [reflexivity|constructor]).
  assert (C2 : Forall commaFree ["443"]) by (constructor; [reflexivity|constructor]).
  exact (proj1 (proj2 (malformed_token_skipped 0 "portcheck" "127.0.0.1" "abc"
                         ["80"] ["443"] [] M eq_refl C1 C2))).
Defined.

(** The tokens 0080 and +80. *)
Lemma single_port_verbatim_witness :
  getAddresses 0 ["portcheck"; "127.0.0.1"; "0080"] = Ret ["127.0.0.1:0080"] /\
  getAddresses 0 ["portcheck"; "127.0.0.1"; "+80"] = Ret ["127.0.0.1:+80"].
Proof.
  split.
  - apply (proj1 single_port_verbatim 0%nat "portcheck" "127.0.0.1" "0080" [] 80);
      (reflexivity || lia).
  - apply (proj1 single_port_verbatim 0%nat "portcheck" "127.0.0.1" "+80" [] 80);
      (reflexivity || lia).
Defined.

(** The program run without any argument. *)
Lemma missing_host_is_fatal_witness :
  (List.length ["portcheck"] < 2)%nat /\
  main unit 0 ["portcheck"] = Fatal usage.
Proof.
  assert (H : (List.length ["portcheck"] < 2)%nat) by (simpl; lia).
  split; [exact H|].
  exact (proj1 (proj2 (missing_host_is_fatal (Conn := unit) 0 ["portcheck"] H))).
Defined.

(** One CPU, one address, after the send and the start of the goroutine. *)
Lemma in_flight_bounded_witness :
  reachable (fun _ : unit => None) 1 ["h:80"]
    (mkState (AtSend []) 1 [attempt (fun _ : unit => None) "h:80" (Some tt)] [] []) /\
  (inFlight
     (mkState (AtSend []) 1 [attempt (fun _ : unit => None) "h:80" (Some tt)] [] [])
   <= workers 1)%nat.
Proof.
  assert (R : reachable (fun _ : unit => None) 1 ["h:80"]
                (mkState (AtSend []) 1
                   [attempt (fun _ : unit => None) "h:80" (Some tt)] [] [])).
  { eapply reach_step.
    - eapply reach_step.
      + apply reach_start.
      + apply (step_send unit (fun _ => None) 1
                 (mkState (AtSend ["h:80"]) 0 [] [] []) "h:80" []);
          [reflexivity | unfold workers; simpl; lia].
    - apply (step_go unit (fun _ => None) 1
               (mkState (AtGo "h:80" []) 1 [] [] []) "h:80" [] (Some tt)).
      reflexivity. }
  split; [exact R|].
  exact (proj2 (proj1 (in_flight_bounded (fun _ : unit => None) 1 _ _ R))).
Defined.

(** C3 as the specification words it fails: in a successful attempt the
    SUCCESS line is written while the slot is still held. *)
Lemma release_not_before_output :
  ~ releasedBeforeOutput (attempt (fun _ : unit => None) "h:80" (Some tt)).
Proof.
  intros H.
  specialize (H (Stdout ("SUCCESS: h:80" ++ newline))).
  assert (B : before Release (Stdout ("SUCCESS: h:80" ++ newline))
                ([Dial "h:80" (Some tt); Stdout ("SUCCESS: h:80" ++ newline);
                  CloseConn tt] ++ [Release]))
    by (apply H; [right; left; reflexivity | reflexivity]).
  revert B. apply before_last.
  intros [E | [E | [E | []]]]; discriminate.
Qed.

(** * Further properties *)

(** ** Reading back what [FormatInt] prints *)

Section RoundTrip.
Import strconv strings net.

Lemma parseDigits_acc (d : Decimal.uint) : forall acc : positive,
  parseDigits (NilEmpty.string_of_uint d) (Z.pos acc)
  = Some (Z.pos (Pos.of_uint_acc d acc)).
Proof.
  induction d; intros acc; cbn [NilEmpty.string_of_uint parseDigits Pos.of_uint_acc];
    try reflexivity;
    match goal with
    | |- (if isDigit ?c then _ else _) = _ =>
        change (isDigit c) with true; cbv iota
    end;
    rewrite <- IHd; f_equal;
    match goal with
    | |- context [digitVal ?c] =>
        let v := eval vm_compute in (digitVal c) in change (digitVal c) with v
    end; lia.
Qed.

Lemma parseDigits_zero (d : Decimal.uint) :
  parseDigits (NilEmpty.string_of_uint d) 0 = Some (Z.of_N (Pos.of_uint d)).
Proof.
  induction d; cbn [NilEmpty.string_of_uint parseDigits Pos.of_uint];
    try reflexivity;
    match goal with
    | |- (if isDigit ?c then _ else _) = _ =>
        change (isDigit c) with true; cbv iota
    end;
    match goal with
    | |- context [digitVal ?c] =>
        let v := eval vm_compute in (digitVal c) in change (digitVal c) with v
    end;
    try exact IHd;
    cbn [Z.of_N]; rewrite <- parseDigits_acc; reflexivity.
Qed.
Lemma string_of_uint_nonnil (d : Decimal.uint) :
  d <> Decimal.Nil ->
  NilZero.string_of_uint d = NilEmpty.string_of_uint d /\
  NilEmpty.string_of_uint d <> "".
Proof. destruct d; intros H; try congruence; split; (reflexivity || discriminate). Qed.

Lemma Atoi_range (s : string) (v : Z) :
  Atoi s = Some v -> minInt64 <= v <= maxInt64.
Proof.
  unfold Atoi. destruct s as [|c0 s']; [discriminate|].
  destruct (if (Ascii.eqb c0 "-" || Ascii.eqb c0 "+")%bool then s' else String c0 s');
    [discriminate|].
  match goal with
  | |- match ?p with _ => _ end = _ -> _ => destruct p as [n|]; [|discriminate]
  end.
  match goal with
  | |- (if ?b then _ else _) = _ -> _ => destruct b eqn:E; [|discriminate]
  end.
  intros H. injection H as <-.
  apply andb_true_iff in E as [E1 E2]. apply Z.leb_le in E1, E2. lia.
Qed.

(** Reading back the text of a number without sign. *)
Lemma Atoi_unsigned (s : string) (n : Z) :
  s <> "" -> parseDigits s 0 = Some n -> n <= maxInt64 -> Atoi s = Some n.
Proof.
  intros Hs P Hn. destruct s as [|c0 s']; [congruence|].
  pose proof (parseDigits_nonneg _ _ _ (Z.le_refl 0) P) as H0.
  assert (D : isDigit c0 = true)
    by (simpl in P; destruct (isDigit c0); [reflexivity|discriminate]).
  unfold Atoi.
  rewrite (isDigit_neq c0 "-" D eq_refl), (isDigit_neq c0 "+" D eq_refl).
  cbn [orb]. rewrite P. cbv zeta.
  replace ((minInt64 <=? n) && (n <=? maxInt64))%bool with true; [reflexivity|].
  symmetry. apply andb_true_iff. split; apply Z.leb_le; unfold minInt64; lia.
Qed.

(** The decimal text of an [int64] reads back as the number. *)
Lemma Atoi_FormatInt (i : Z) :
  minInt64 <= i <= maxInt64 -> Atoi (FormatInt i) = Some i.
Proof.
  intros Hi. unfold FormatInt. destruct i as [|p|p].
  - reflexivity.
  - cbn [Z.to_int NilZero.string_of_int].
    destruct (string_of_uint_nonnil _ (DecimalPos.Unsigned.to_uint_nonnil p)) as [-> Hne].
    apply Atoi_unsigned; [assumption| |lia].
    now rewrite parseDigits_zero, DecimalPos.Unsigned.of_to.
  - cbn [Z.to_int NilZero.string_of_int].
    destruct (string_of_uint_nonnil _ (DecimalPos.Unsigned.to_uint_nonnil p)) as [-> Hne].
    unfold Atoi. cbn [Ascii.eqb Bool.eqb orb].
    change (Ascii.eqb "-" "-") with true. cbn [orb].
    destruct (NilEmpty.string_of_uint (Pos.to_uint p)) as [|c s] eqn:E; [congruence|].
    rewrite <- E, parseDigits_zero, DecimalPos.Unsigned.of_to. cbv zeta.
    cbn [Z.of_N Z.opp].
    replace ((minInt64 <=? Z.neg p) && (Z.neg p <=? maxInt64))%bool with true;
      [reflexivity|].
    symmetry. apply andb_true_iff. split; apply Z.leb_le; lia.
Qed.
End RoundTrip.

(** ** More facts about the expander *)

Section ExpanderMore.
Import strconv strings net.

(** With the largest [int64] as its bound the loop never leaves. *)
Lemma portLoop_diverges fuel : forall i toReturn,
  minInt64 <= i <= maxInt64 -> portLoop fuel i maxInt64 toReturn = OutOfFuel.
Proof.
  induction fuel as [|fuel IH]; intros i acc Hi; simpl;
    replace (i <=? maxInt64) with true by (symmetry; apply Z.leb_le; lia).
  - reflexivity.
  - apply IH. unfold wrap64, minInt64, maxInt64 in *.
    pose proof (Z.mod_pos_bound (i + 1 + 2 ^ 63) (2 ^ 64) ltac:(lia)). lia.
Qed.

Lemma portsBetween_cons i e :
  i <= e -> portsBetween i e = i :: portsBetween (i + 1) e.
Proof.
  intros H. unfold portsBetween.
  replace (Z.to_nat (e - i + 1)) with (S (Z.to_nat (e - (i + 1) + 1))) by lia.
  reflexivity.
Qed.

Lemma portsBetween_nil i e : e < i -> portsBetween i e = [].
Proof.
  intros H. unfold portsBetween.
  now replace (Z.to_nat (e - i + 1)) with 0%nat by lia.
Qed.

(** What the loop returns, when it returns. *)
Lemma portLoop_returns fuel : forall i e toReturn r,
  minInt64 <= i -> e <= maxInt64 ->
  portLoop fuel i e toReturn = Ret r ->
  r = (toReturn ++ map FormatInt (portsBetween i e))%list.
Proof.
  induction fuel as [|fuel IH]; intros i e acc r Hi He H; simpl in H;
    destruct (i <=? e) eqn:L; try discriminate.
  - injection H as <-. apply Z.leb_gt in L.
    now rewrite portsBetween_nil, app_nil_r by lia.
  - apply Z.leb_le in L.
    assert (e < maxInt64).
    { destruct (Z.eq_dec e maxInt64) as [->|]; [|lia].
      rewrite portLoop_diverges in H; [discriminate|].
      unfold wrap64, minInt64, maxInt64 in *.
      pose proof (Z.mod_pos_bound (i + 1 + 2 ^ 63) (2 ^ 64) ltac:(lia)). lia. }
    rewrite wrap64_id in H by lia.
    apply IH in H; [|lia|lia].
    rewrite portsBetween_cons by lia. now rewrite <- app_assoc in H.
  - injection H as <-. apply Z.leb_gt in L.
    now rewrite portsBetween_nil, app_nil_r by lia.
Qed.

(** The loop with enough fuel, whatever the order of its bounds. *)
Lemma portLoop_total fuel i e toReturn :
  minInt64 <= i -> e < maxInt64 -> (Z.to_nat (e - i + 1) <= fuel)%nat ->
  portLoop fuel i e toReturn
  = Ret (toReturn ++ map FormatInt (portsBetween i e))%list.
Proof.
  intros Hi He Hf. destruct (Z_lt_le_dec e i) as [L|L].
  - now rewrite portLoop_empty, portsBetween_nil, app_nil_r by lia.
  - apply (portLoop_run (Z.to_nat (e - i + 1))); lia.
Qed.

Lemma tokenLoop_acc fuel host tokens : forall addresses,
  tokenLoop fuel host tokens addresses
  = (r <- tokenLoop fuel host tokens [] ;; Ret (addresses ++ r)%list).
Proof.
  induction tokens as [|t tokens IH]; intros acc; cbn [tokenLoop].
  - cbn [bind]. now rewrite app_nil_r.
  - destruct (getPorts fuel t) as [[r|]| |]; cbn [bind]; auto.
    rewrite (IH (acc ++ joinAll host r)%list), (IH ([] ++ joinAll host r)%list).
    destruct (tokenLoop fuel host tokens []); cbn [bind app]; auto.
    now rewrite app_assoc.
Qed.


(** Splitting at a separator splits the pieces on both sides. *)
Lemma Split_app_gen (sep : ascii) (a b : string) :
  Split (a ++ String sep b) sep = (Split a sep ++ Split b sep)%list.
Proof.
  unfold Split. induction a as [|c a IH]; simpl.
  - rewrite Ascii.eqb_refl. destruct (cutAll b sep); reflexivity.
  - destruct (cutAll (a ++ String sep b) sep) as [h t].
    destruct (cutAll a sep) as [h1 t1]. destruct (cutAll b sep) as [h2 t2].
    simpl in IH. injection IH as -> ->.
    destruct (Ascii.eqb c sep); reflexivity.
Qed.

(** The tokens that are the decimal texts of valid ports. *)
Lemma tokenLoop_ports fuel host (l : list Z) : forall addresses,
  Forall (fun i => 1 <= i <= portRangeEnd) l ->
  tokenLoop fuel host (map FormatInt l) addresses
  = Ret (addresses ++ map (endpoint host) l)%list.
Proof.
  induction l as [|i l IH]; intros acc Hl; cbn [map tokenLoop].
  - now rewrite app_nil_r.
  - inversion Hl as [|? ? Hi Hl']; subst.
    pose proof (Atoi_FormatInt i ltac:(unfold minInt64, maxInt64, portRangeEnd in *; lia)) as A.
    rewrite getPorts_single, A by (apply (Atoi_port_noDash _ _ A); lia).
    rewrite (proj2 (inPortRange_iff i) Hi). cbn [bind].
    rewrite IH by assumption. rewrite <- app_assoc. reflexivity.
Qed.

End ExpanderMore.

Section ExpanderExtras.
Import strconv strings net.

Lemma Atoi_noByte (c : ascii) (s : string) (v : Z) :
  Atoi s = Some v ->
  isDigit c = false -> c <> "+"%char -> c <> "-"%char ->
  containsByte s c = false.
Proof.
  intros H Hc Hplus Hminus. destruct s as [|c0 s']; [discriminate|].
  unfold Atoi in H.
  assert (T : forall body, (match body with
                            | "" => None
                            | String _ _ =>
                                match parseDigits body 0 with
                                | Some n =>
                                    let v0 := if Ascii.eqb c0 "-" then - n else n in
                                    if (minInt64 <=? v0) && (v0 <=? maxInt64)
                                    then Some v0 else None
                                | None => None
                                end
                            end = Some v) -> containsByte body c = false).
  { intros body Hb. destruct body as [|c1 b]; [discriminate|].
    destruct (parseDigits (String c1 b) 0) as [n|] eqn:P; [|discriminate].
    exact (parseDigits_noByte c _ Hc _ _ P). }
  destruct (Ascii.eqb c0 "-" || Ascii.eqb c0 "+")%bool eqn:S.
  - apply (T s') in H. cbn [containsByte]. rewrite H, orb_false_r.
    destruct (Ascii.eqb c0 c) eqn:E; [|reflexivity].
    apply Ascii.eqb_eq in E. subst c0.
    apply orb_true_iff in S as [S|S]; apply Ascii.eqb_eq in S; congruence.
  - exact (T (String c0 s') H).
Qed.

Lemma getPorts_range fuel a b lo hi :
  Atoi a = Some lo -> Atoi b = Some hi -> 1 <= lo <= portRangeEnd ->
  containsByte b "-" = false ->
  getPorts fuel (a ++ "-" ++ b)
  = (toReturn <- portLoop fuel lo hi [] ;; Ret (Some toReturn)).
Proof.
  intros Ha Hb Hlo Db.
  rewrite getPorts_pair, Ha, Hb by (try apply (Atoi_port_noDash _ _ Ha); tauto || lia).
  now rewrite (proj2 (inPortRange_iff lo)).
Qed.

Lemma range_token_commaFree a b lo hi :
  Atoi a = Some lo -> Atoi b = Some hi -> commaFree (a ++ "-" ++ b).
Proof.
  intros Ha Hb. unfold commaFree. rewrite !containsByte_app.
  rewrite (Atoi_noByte "," _ _ Ha), (Atoi_noByte "," _ _ Hb);
    (reflexivity || discriminate).
Qed.

Lemma getAddresses_token fuel prog host tok extra :
  commaFree tok ->
  getAddresses fuel (prog :: host :: tok :: extra)
  = (r <- getPorts fuel tok ;;
     Ret match r with Some r => map (JoinHostPort host) r | None => [] end).
Proof.
  intros H. rewrite getAddresses_ports, Split_noSep by assumption.
  cbn [tokenLoop]. destruct (getPorts fuel tok) as [[r|]| |]; cbn [bind app]; auto.
  now rewrite joinAll_map.
Qed.

(** Every port text that [getPorts] returns reads as a number from 1 up. *)
Lemma getPorts_positive fuel r l :
  getPorts fuel r = Ret (Some l) ->
  Forall (fun p => exists v, Atoi p = Some v /\ 1 <= v) l.
Proof.
  unfold getPorts. destruct (Split_cons "-" r) as (s0 & s_tl & ->).
  destruct (Atoi s0) as [start|] eqn:A0; [|discriminate].
  destruct ((start >? portRangeEnd) || (start <? 1)) eqn:R; [discriminate|].
  apply orb_false_iff in R as [_ R]. apply Z.ltb_ge in R.
  destruct s_tl as [|s1 [|s2 s_tl]]; try discriminate.
  - intros H. injection H as <-. constructor; [eauto|constructor].
  - destruct (Atoi s1) as [e|] eqn:A1; [|discriminate].
    destruct (portLoop fuel start e []) as [ports| |] eqn:P; try discriminate.
    intros H. injection H as <-.
    apply Atoi_range in A1.
    apply portLoop_returns in P; [|unfold minInt64; lia|lia]. subst ports.
    apply Forall_forall. intros p Hp. apply in_map_iff in Hp as (i & <- & Hi).
    apply Zseq_In in Hi. exists i. split; [|lia].
    apply Atoi_FormatInt. unfold minInt64 in *. lia.
Qed.

Lemma tokenLoop_sound (P : string -> Prop) fuel host
      (HP : forall t r, getPorts fuel t = Ret (Some r) ->
                        Forall P (map (JoinHostPort host) r)) tokens :
  forall addresses l,
    tokenLoop fuel host tokens addresses = Ret l ->
    Forall P addresses -> Forall P l.
Proof.
  induction tokens as [|t tokens IH]; intros acc l H Hacc; cbn [tokenLoop] in H.
  - now injection H as <-.
  - destruct (getPorts fuel t) as [[r|]| |] eqn:G; cbn [bind] in H;
      try discriminate.
    + apply (IH _ _ H). apply Forall_app. split; [assumption|].
      rewrite joinAll_map. exact (HP t r G).
    + exact (IH _ _ H Hacc).
Qed.

End ExpanderExtras.

(** ** More properties of the expander *)

Lemma Ret_inj {A : Type} (x y : A) : Ret x = Ret y -> x = y.
Proof. intros H. now injection H. Qed.

Section ExpanderExtraClaims.
Import strconv strings net.


(** X2: a range token whose high bound is the largest [int64] makes the loop
    of [getPorts] run for ever: the counter wraps around and is never above
    the bound. No loop budget is enough. *)
Theorem range_to_max_int_never_returns
  (fuel : nat) (prog host a b : string) (extra : list string) (lo : Z) :
  Atoi a = Some lo -> 1 <= lo <= 65535 -> Atoi b = Some maxInt64 ->
  getPorts fuel (a ++ "-" ++ b) = OutOfFuel /\
  getAddresses fuel (prog :: host :: (a ++ "-" ++ b) :: extra) = OutOfFuel.
Proof.
  intros Ha Hlo Hb.
  assert (G : getPorts fuel (a ++ "-" ++ b) = OutOfFuel).
  { rewrite (getPorts_range fuel a b lo maxInt64 Ha Hb Hlo).
    - rewrite portLoop_diverges; [reflexivity|].
      unfold minInt64, maxInt64. lia.
    - apply (Atoi_port_noDash _ _ Hb). unfold maxInt64. lia. }
  split; [exact G|].
  rewrite getAddresses_token by exact (range_token_commaFree _ _ _ _ Ha Hb).
  now rewrite G.
Qed.


(** X4: every address that [getAddresses] returns is an address of the host
    given on the command line, and its port text reads as a number from 1
    up: port 0 and negative ports are never produced. *)
Theorem endpoints_for_requested_host
  (fuel : nat) (prog host : string) (rest l : list string) :
  getAddresses fuel (prog :: host :: rest) = Ret l ->
  Forall (validEndpoint host) l.
Proof.
  assert (V : forall i, 1 <= i <= maxInt64 -> validEndpoint host (endpoint host i)).
  { intros i Hi. exists (FormatInt i), i. split; [reflexivity|]. split; [|lia].
    apply Atoi_FormatInt. unfold minInt64. lia. }
  destruct rest as [|ports extra].
  - rewrite getAddresses_all. intros H. apply Ret_inj in H. subst l.
    apply Forall_forall. intros a Ha. apply in_map_iff in Ha as (i & <- & Hi).
    apply Zseq_In in Hi. apply V. unfold portRangeEnd, maxInt64 in *. lia.
  - rewrite getAddresses_ports. intros H.
    apply (tokenLoop_sound (validEndpoint host) fuel host) in H; auto.
    intros t r G. apply getPorts_positive in G.
    apply Forall_forall. intros a Ha. apply in_map_iff in Ha as (p & <- & Hp).
    rewrite Forall_forall in G. destruct (G p Hp) as (v & Hv & Hv1).
    now exists p, v.
Qed.

(** X5: a range token whose bounds are valid ports in order yields the same
    addresses as the list of its ports written out one by one, separated by
    commas. *)
Theorem range_equals_enumeration
  (fuel : nat) (prog host a b : string) (extra : list string) (lo hi : Z) :
  Atoi a = Some lo -> Atoi b = Some hi ->
  1 <= lo -> lo <= hi -> hi <= 65535 ->
  (Z.to_nat (hi - lo + 1) <= fuel)%nat ->
  getAddresses fuel (prog :: host :: (a ++ "-" ++ b) :: extra)
  = getAddresses 0
      (prog :: host :: String.concat "," (map FormatInt (portsBetween lo hi)) :: extra).
Proof.
  intros Ha Hb Hlo Hle Hhi Hfuel.
  assert (Hports : Forall (fun i => 1 <= i <= portRangeEnd) (portsBetween lo hi)).
  { apply Forall_forall. intros i Hi. apply Zseq_In in Hi.
    unfold portRangeEnd. lia. }
  rewrite getAddresses_token by exact (range_token_commaFree _ _ _ _ Ha Hb).
  rewrite (getPorts_range fuel a b lo hi Ha Hb)
    by (try apply (Atoi_port_noDash _ _ Hb); unfold portRangeEnd; lia).
  rewrite portLoop_total by (unfold minInt64, maxInt64; lia).
  cbn [bind app]. rewrite map_map.
  rewrite getAddresses_ports, Split_concat.
  - now rewrite tokenLoop_ports.
  - rewrite portsBetween_cons by assumption. discriminate.
  - apply Forall_map. revert Hports. apply Forall_impl. intros i Hi.
    apply (Atoi_port_noComma _ i); [|lia].
    apply Atoi_FormatInt. unfold minInt64, maxInt64, portRangeEnd in *. lia.
Qed.

(** X6: a comma concatenates: the addresses of a port argument [p1,p2] are
    those of [p1] followed by those of [p2], in that order and with
    repetitions kept. *)
Theorem comma_concatenates
  (fuel : nat) (prog host p1 p2 : string) (extra : list string) :
  getAddresses fuel (prog :: host :: (p1 ++ "," ++ p2) :: extra)
  = (l1 <- getAddresses fuel (prog :: host :: p1 :: extra) ;;
     l2 <- getAddresses fuel (prog :: host :: p2 :: extra) ;;
     Ret (l1 ++ l2)%list).
Proof.
  rewrite !getAddresses_ports.
  change (p1 ++ "," ++ p2) with (p1 ++ String "," p2).
  rewrite Split_app_gen, tokenLoop_app.
  destruct (tokenLoop fuel host (Split p1 ",") []) as [l1| |]; cbn [bind]; auto.
  apply tokenLoop_acc.
Qed.

End ExpanderExtraClaims.

(** ** More facts about the prober *)

Section ProberMore.

Context {Conn : Type} (Close : Conn -> option string) (NumCPU : nat).

Lemma attempt_length address conn :
  (List.length (attempt Close address conn) <= 5)%nat.
Proof.
  rewrite attempt_eq. destruct conn as [c|]; [destruct (Close c)|]; simpl; lia.
Qed.

Lemma attempt_lines address conn :
  (List.length (stdoutOf (attempt Close address conn)) <= 1)%nat.
Proof.
  rewrite attempt_eq. destruct conn as [c|]; [destruct (Close c)|]; simpl; lia.
Qed.

Lemma attempt_expected addresses address conn :
  In address addresses ->
  Forall (expectedAction Close addresses) (attempt Close address conn).
Proof.
  intros Hin. rewrite attempt_eq.
  destruct conn as [c|]; [destruct (Close c) as [errE|] eqn:E|];
    repeat constructor; simpl; try (now exists address).
  now exists c, errE.
Qed.

Lemma list_sum_middle (f : list (action Conn) -> nat) gs1 g gs2 :
  list_sum (map f (gs1 ++ g :: gs2))
  = (list_sum (map f gs1) + f g + list_sum (map f gs2))%nat.
Proof. rewrite map_app, list_sum_app. simpl. lia. Qed.

Lemma reachableIn_reachable addresses n (st : state Conn) :
  reachableIn Close NumCPU addresses n st -> reachable Close NumCPU addresses st.
Proof.
  induction 1 as [|n st st' _ IH Hstep]; [apply reach_start|].
  exact (reach_step _ _ _ _ _ _ IH Hstep).
Qed.

(** Every step uses up one of the steps left. *)
Lemma step_stepsLeft (st st' : state Conn) :
  step Close NumCPU st st' -> (stepsLeft st' < stepsLeft st)%nat.
Proof.
  intros Hstep. unfold stepsLeft.
  destruct Hstep as [st address rest Hpc Hlt | st address rest conn Hpc
                    | st Hpc | st Hpc Hdone | st gs1 a k gs2 Hgs Hen].
  - cbn [pc goroutines]. rewrite Hpc. cbn [mainSteps List.length]. lia.
  - cbn [pc goroutines]. rewrite Hpc. cbn [mainSteps].
    rewrite map_app, list_sum_app. cbn [map list_sum fold_right].
    pose proof (attempt_length address conn). lia.
  - cbn [pc goroutines]. rewrite Hpc. cbn [mainSteps List.length]. lia.
  - cbn [pc goroutines]. rewrite Hpc. cbn [mainSteps]. lia.
  - destruct (act_fields a (gs1 ++ k :: gs2) st) as (-> & -> & _).
    rewrite Hgs, !list_sum_middle. cbn [List.length]. lia.
Qed.

(** What [main] has started and what it has still to start make up the
    addresses; the lines written and to come are one per goroutine at most;
    after the exit no goroutine has anything left. *)
Lemma progress_reachable addresses (st : state Conn) :
  reachable Close NumCPU addresses st ->
  (List.length (goroutines st) + List.length (pending (pc st))
   = List.length addresses)%nat /\
  (List.length (stdout st) + linesToCome (goroutines st)
   <= List.length (goroutines st))%nat /\
  (pc st = Exited -> Forall (fun g => g = []) (goroutines st)).
Proof.
  induction 1 as [|st st' _ (IH1 & IH2 & IH3) Hstep].
  - split; [reflexivity|]. split; [apply Nat.le_refl|discriminate].
  - destruct Hstep as [st address rest Hpc Hlt | st address rest conn Hpc
                      | st Hpc | st Hpc Hdone | st gs1 a k gs2 Hgs Hen].
    + rewrite Hpc in *. cbn [pc goroutines stdout stderr pending List.length] in *. split; [lia|]; split; [lia|discriminate].
    + rewrite Hpc in *. cbn [pc goroutines stdout pending] in *.
      unfold linesToCome in *. rewrite length_app, map_app, list_sum_app.
      cbn [List.length map list_sum fold_right] in *.
      pose proof (attempt_lines address conn).
      split; [lia|]; split; [lia|discriminate].
    + rewrite Hpc in *. cbn [pc goroutines stdout stderr pending List.length] in *. split; [lia|]; split; [lia|discriminate].
    + rewrite Hpc in *. cbn [pc goroutines stdout stderr pending List.length] in *. split; [lia|]; split; [lia|trivial].
    + destruct (act_fields a (gs1 ++ k :: gs2) st) as (Epc & Egs & _).
      rewrite Epc, Egs. rewrite Hgs in *.
      unfold linesToCome in *. rewrite list_sum_middle in *.
      rewrite !length_app in *. cbn [List.length] in *.
      split; [|split].
      * lia.
      * unfold stdoutOf in *.
        destruct a; cbn [act stdout flat_map List.length app] in *;
          rewrite ?length_app in *; cbn [List.length] in *; lia.
      * intros E. specialize (IH3 E). apply Forall_app in IH3 as [_ IH3].
        inversion IH3; discriminate.
Qed.

(** Every line written, and every line to come, is a SUCCESS line of one of
    the addresses or the diagnostic of a close that failed. *)
Lemma output_reachable addresses (st : state Conn) :
  reachable Close NumCPU addresses st ->
  incl (pending (pc st)) addresses /\
  Forall (Forall (expectedAction Close addresses)) (goroutines st) /\
  Forall (successLine addresses) (stdout st) /\
  Forall (closeErrorLine Close) (stderr st).
Proof.
  induction 1 as [|st st' _ (IH1 & IH2 & IH3 & IH4) Hstep].
  - cbn. repeat split; auto using incl_refl.
  - destruct Hstep as [st address rest Hpc Hlt | st address rest conn Hpc
                      | st Hpc | st Hpc Hdone | st gs1 a k gs2 Hgs Hen].
    + rewrite Hpc in *. cbn in *. repeat split; assumption.
    + rewrite Hpc in *. cbn [pc goroutines stdout stderr pending] in *.
      repeat split; try assumption.
      * intros x Hx. apply IH1. now right.
      * apply Forall_app. split; [assumption|].
        constructor; [|constructor].
        apply attempt_expected, IH1. now left.
    + rewrite Hpc in *. cbn in *. repeat split; try assumption; try (intros x []).
    + rewrite Hpc in *. cbn in *. repeat split; try assumption; try (intros x []).
    + rewrite Hgs in IH2. apply Forall_app in IH2 as [G1 G2].
      inversion G2 as [|? ? Gak G3]; subst.
      inversion Gak as [|? ? Ga Gk]; subst.
      assert (G : Forall (Forall (expectedAction Close addresses)) (gs1 ++ k :: gs2))
        by (apply Forall_app; split; [assumption|now constructor]).
      destruct a; cbn [act pc goroutines stdout stderr] in *;
        repeat split; try assumption;
        apply Forall_app; split; try assumption; now constructor.
Qed.

Lemma run_stepsLeft addresses n (st : state Conn) :
  reachableIn Close NumCPU addresses n st ->
  (n + stepsLeft st <= 7 * List.length addresses + 2)%nat.
Proof.
  induction 1 as [|n st st' _ IH Hstep].
  - unfold stepsLeft. simpl. lia.
  - pose proof (step_stepsLeft _ _ Hstep). lia.
Qed.

Lemma all_done_or_not (gs : list (list (action Conn))) :
  Forall (fun g => g = []) gs \/ exists g, In g gs /\ g <> [].
Proof.
  induction gs as [|g gs [IH | (g' & Hg & Hne)]].
  - left. constructor.
  - destruct g as [|a k].
    + left. now constructor.
    + right. exists (a :: k). split; [now left|discriminate].
  - right. exists g'. split; [now right|assumption].
Qed.

(** With at least one CPU the program is not stuck before its exit. *)
Lemma can_step addresses (st : state Conn) :
  reachable Close NumCPU addresses st ->
  (0 < NumCPU)%nat -> pc st <> Exited ->
  exists st', step Close NumCPU st st'.
Proof.
  intros Hreach Hcpu Hpc.
  destruct (invariant_reachable Close NumCPU _ _ Hreach) as (Hcap & Hcount & Hwf).
  assert (Hact : forall g, In g (goroutines st) -> g <> [] ->
                           exists st', step Close NumCPU st st').
  { intros [|a k] Hg Hne; [congruence|].
    destruct (in_split _ _ Hg) as (gs1 & gs2 & Hgs).
    eexists. apply (step_act _ Close NumCPU st gs1 a k gs2 Hgs).
    destruct a; simpl; auto.
    rewrite Hgs, slots_app in Hcount. unfold slots in Hcount at 2.
    simpl in Hcount. lia. }
  destruct (pc st) as [[|address rest] | address rest | | ] eqn:E.
  - eexists. exact (step_loop_end _ Close NumCPU st E).
  - destruct (Nat.lt_ge_cases (chanLen st) (workers NumCPU)) as [Hlt|Hge].
    + eexists. exact (step_send _ Close NumCPU st address rest E Hlt).
    + simpl in Hcount.
      pose proof (slots_inFlight _ Hwf) as Hin.
      destruct (filter holdsSlot (goroutines st)) as [|g gs] eqn:F.
      * simpl in Hin. unfold workers in Hge. lia.
      * assert (Hg : In g (filter holdsSlot (goroutines st)))
          by (rewrite F; now left).
        apply filter_In in Hg as [Hg Hhold].
        apply (Hact g Hg). intros ->. discriminate.
  - eexists. exact (step_go _ Close NumCPU st address rest None E).
  - destruct (all_done_or_not (goroutines st)) as [Hall | (g & Hg & Hne)].
    + eexists. exact (step_wait _ Close NumCPU st E Hall).
    + exact (Hact g Hg Hne).
  - congruence.
Qed.

End ProberMore.

(** ** More properties of the prober *)

Section ProberExtraClaims.

Context {Conn : Type} (Close : Conn -> option string) (NumCPU : nat).

(** X7: the channel holds exactly one value for each attempt in flight, and
    one more between a send of [main] and the start of the goroutine: no
    slot is lost and none is given back twice. *)
Theorem channel_counts_in_flight (addresses : list string) (st : state Conn) :
  reachable Close NumCPU addresses st ->
  chanLen st = (inFlight st + goFlag (pc st))%nat.
Proof.
  intros Hreach.
  destruct (invariant_reachable Close NumCPU _ _ Hreach) as (_ & Hcount & Hwf).
  unfold inFlight. rewrite (slots_inFlight _ Hwf). now symmetry.
Qed.

(** X8: a run is short: from the start of the loop the program takes at most
    seven steps for each address and two more, so it cannot run for ever;
    after [n] steps at most that many less are left. *)
Theorem run_length_bounded (addresses : list string) (n : nat) (st : state Conn) :
  reachableIn Close NumCPU addresses n st ->
  (n <= 7 * List.length addresses + 2)%nat /\
  (stepsLeft st <= 7 * List.length addresses + 2 - n)%nat.
Proof.
  intros H. pose proof (run_stepsLeft Close NumCPU _ _ _ H). lia.
Qed.


(** X10: with at least one CPU the program is never stuck and can always run
    on to its exit: from every state it can reach, some sequence of steps
    ends with [main] past [wg.Wait]. *)
Theorem always_exits (addresses : list string) (st : state Conn) :
  reachable Close NumCPU addresses st ->
  (0 < NumCPU)%nat ->
  (pc st <> Exited -> exists st', step Close NumCPU st st') /\
  exists st',
    Relation_Operators.clos_refl_trans _ (step Close NumCPU) st st' /\
    pc st' = Exited.
Proof.
  intros Hreach Hcpu. split; [now apply can_step with addresses|].
  remember (stepsLeft st) as m eqn:Hm. revert st Hreach Hm.
  induction m as [m IH] using lt_wf_ind. intros st Hreach Hm.
  destruct (pc st) eqn:E;
    try (exists st; split; [apply Relation_Operators.rt_refl|assumption]);
    (destruct (can_step Close NumCPU addresses st Hreach Hcpu) as [st1 Hstep];
     [congruence|];
     pose proof (step_stepsLeft Close NumCPU _ _ Hstep) as Hlt;
     destruct (IH (stepsLeft st1) ltac:(lia) st1
                  (reach_step _ _ _ _ _ _ Hreach Hstep) eq_refl)
       as (st' & Hrun & Hexit);
     exists st'; split; [|assumption];
     eapply Relation_Operators.rt_trans;
       [apply Relation_Operators.rt_step; exact Hstep | exact Hrun]).
Qed.

(** X11: every line on the standard output is the SUCCESS line of one of the
    addresses, and every line on the error stream is the diagnostic of a
    close that failed: the program writes nothing else. *)
Theorem output_lines_expected (addresses : list string) (st : state Conn) :
  reachable Close NumCPU addresses st ->
  Forall (successLine addresses) (stdout st) /\
  Forall (closeErrorLine Close) (stderr st).
Proof.
  intros Hreach.
  destruct (output_reachable Close NumCPU _ _ Hreach) as (_ & _ & H1 & H2).
  now split.
Qed.

(** X12: the program writes one SUCCESS line for each goroutine it has
    started at most, so never more lines than there are addresses. *)
Theorem at_most_one_line_per_address (addresses : list string) (st : state Conn) :
  reachable Close NumCPU addresses st ->
  (List.length (stdout st) <= List.length (goroutines st)
   <= List.length addresses)%nat.
Proof.
  intros Hreach.
  destruct (progress_reachable Close NumCPU _ _ Hreach) as (Hlen & Hout & _).
  lia.
Qed.

End ProberExtraClaims.

(** ** The further properties at concrete inputs *)


Lemma range_to_max_int_never_returns_witness :
  strconv.Atoi "9223372036854775807" = Some strconv.maxInt64 /\
  getAddresses 1000 ["portcheck"; "h"; "1-9223372036854775807"] = OutOfFuel.
Proof.
  split; [reflexivity|].
  apply (range_to_max_int_never_returns 1000 "portcheck" "h" "1"
           "9223372036854775807" [] 1);
    (reflexivity || lia).
Defined.


Lemma endpoints_for_requested_host_witness :
  getAddresses 2 ["portcheck"; "h"; "80,8000-8001"]
  = Ret ["h:80"; "h:8000"; "h:8001"] /\
  Forall (validEndpoint "h") ["h:80"; "h:8000"; "h:8001"].
Proof.
  split; [reflexivity|].
  exact (endpoints_for_requested_host 2 "portcheck" "h" ["80,8000-8001"]
           ["h:80"; "h:8000"; "h:8001"] eq_refl).
Defined.

Lemma range_equals_enumeration_witness :
  strconv.Atoi "8000" = Some 8000 /\ strconv.Atoi "8002" = Some 8002 /\
  getAddresses 3 ["portcheck"; "h"; "8000-8002"]
  = getAddresses 0 ["portcheck"; "h"; "8000,8001,8002"].
Proof.
  split; [reflexivity|]. split; [reflexivity|].
  apply (range_equals_enumeration 3 "portcheck" "h" "8000" "8002" [] 8000 8002);
    try reflexivity; try lia; simpl; lia.
Defined.

(** A run of the prober on one address whose attempt succeeds, one CPU,
    a close that does not fail. *)
Lemma run_started :
  reachableIn (fun _ : unit => None) 1 ["h:80"] 2
    (mkState (AtSend []) 1
       [[Dial "h:80" (Some tt); Stdout ("SUCCESS: h:80" ++ newline);
         CloseConn tt; Release]] [] []).
Proof.
  eapply (reachIn_step _ _ _ 1 (mkState (AtGo "h:80" []) 1 [] [] [])).
  - eapply (reachIn_step _ _ _ 0 (mkState (AtSend ["h:80"]) 0 [] [] [])).
    + apply reachIn_start.
    + apply (step_send unit (fun _ => None) 1
               (mkState (AtSend ["h:80"]) 0 [] [] []) "h:80" []);
        [reflexivity | unfold workers; simpl; lia].
  - apply (step_go unit (fun _ => None) 1
             (mkState (AtGo "h:80" []) 1 [] [] []) "h:80" [] (Some tt)).
    reflexivity.
Defined.

Lemma run_written :
  reachableIn (fun _ : unit => None) 1 ["h:80"] 4
    (mkState (AtSend []) 1 [[CloseConn tt; Release]]
       ["SUCCESS: h:80" ++ newline] []).
Proof.
  eapply (reachIn_step _ _ _ 3
            (mkState (AtSend []) 1
               [[Stdout ("SUCCESS: h:80" ++ newline); CloseConn tt; Release]]
               [] [])).
  - eapply (reachIn_step _ _ _ 2); [exact run_started|].
    apply (step_act unit (fun _ => None) 1
             (mkState (AtSend []) 1
                [[Dial "h:80" (Some tt); Stdout ("SUCCESS: h:80" ++ newline);
                  CloseConn tt; Release]] [] [])
             [] (Dial "h:80" (Some tt))
             [Stdout ("SUCCESS: h:80" ++ newline); CloseConn tt; Release] []);
      [reflexivity | exact I].
  - apply (step_act unit (fun _ => None) 1
             (mkState (AtSend []) 1
                [[Stdout ("SUCCESS: h:80" ++ newline); CloseConn tt; Release]]
                [] [])
             [] (Stdout ("SUCCESS: h:80" ++ newline)) [CloseConn tt; Release] []);
      [reflexivity | exact I].
Defined.

Lemma run_exited :
  reachableIn (fun _ : unit => None) 1 ["h:80"] 8
    (mkState (Conn := unit) Exited 0 [[]] ["SUCCESS: h:80" ++ newline] []).
Proof.
  eapply (reachIn_step _ _ _ 7
            (mkState AtWait 0 [[]] ["SUCCESS: h:80" ++ newline] []));
    [|apply (step_wait unit (fun _ => None) 1
               (mkState AtWait 0 [[]] ["SUCCESS: h:80" ++ newline] []));
      [reflexivity | repeat constructor]].
  eapply (reachIn_step _ _ _ 6
            (mkState (AtSend []) 0 [[]] ["SUCCESS: h:80" ++ newline] []));
    [|apply (step_loop_end unit (fun _ => None) 1
               (mkState (AtSend []) 0 [[]] ["SUCCESS: h:80" ++ newline] []));
      reflexivity].
  eapply (reachIn_step _ _ _ 5
            (mkState (AtSend []) 1 [[Release]] ["SUCCESS: h:80" ++ newline] []));
    [|apply (step_act unit (fun _ => None) 1
               (mkState (AtSend []) 1 [[Release]] ["SUCCESS: h:80" ++ newline] [])
               [] Release [] []);
      [reflexivity | simpl; lia]].
  eapply (reachIn_step _ _ _ 4); [exact run_written|].
  apply (step_act unit (fun _ => None) 1
           (mkState (AtSend []) 1 [[CloseConn tt; Release]]
              ["SUCCESS: h:80" ++ newline] [])
           [] (CloseConn tt) [Release] []);
    [reflexivity | exact I].
Defined.

Lemma channel_counts_in_flight_witness :
  chanLen (mkState (Conn := unit) (AtSend []) 1 [[CloseConn tt; Release]]
             ["SUCCESS: h:80" ++ newline] [])
  = (inFlight (mkState (Conn := unit) (AtSend []) 1 [[CloseConn tt; Release]]
                 ["SUCCESS: h:80" ++ newline] []) + 0)%nat.
Proof.
  exact (channel_counts_in_flight (fun _ : unit => None) 1 ["h:80"] _
           (reachableIn_reachable _ _ _ _ _ run_written)).
Defined.

Lemma run_length_bounded_witness : (8 <= 7 * 1 + 2)%nat.
Proof.
  exact (proj1 (run_length_bounded (fun _ : unit => None) 1 ["h:80"] 8 _ run_exited)).
Defined.


Lemma always_exits_witness :
  exists st',
    Relation_Operators.clos_refl_trans _ (step (fun _ : unit => None) 1)
      (mkState (AtSend []) 1 [[CloseConn tt; Release]]
         ["SUCCESS: h:80" ++ newline] []) st' /\
    pc st' = Exited.
Proof.
  exact (proj2 (always_exits (fun _ : unit => None) 1 ["h:80"] _
                  (reachableIn_reachable _ _ _ _ _ run_written)
                  (Nat.lt_0_succ 0))).
Defined.

Lemma output_lines_expected_witness :
  Forall (successLine ["h:80"]) ["SUCCESS: h:80" ++ newline].
Proof.
  exact (proj1 (output_lines_expected (fun _ : unit => None) 1 ["h:80"] _
                  (reachableIn_reachable _ _ _ _ _ run_exited))).
Defined.

Lemma at_most_one_line_per_address_witness :
  (List.length ["SUCCESS: h:80" ++ newline]
   <= List.length (goroutines (mkState (Conn := unit) Exited 0 [[]]
                                 ["SUCCESS: h:80" ++ newline] []))
   <= 1)%nat.
Proof.
  exact (at_most_one_line_per_address (fun _ : unit => None) 1 ["h:80"] _
           (reachableIn_reachable _ _ _ _ _ run_exited)).
Defined.
